(** * Line breaking of [render.objects.text.Text]

    A shallow embedding of [src/render/objects/text.py]: the line splitter
    [Text._split_line], the word splitter [Text._split_word], the hard-break
    pass [Text.cut], the constructor and [content_width], followed by the
    properties of the layout engine.

    Python strings are sequences of code points, modelled as lists of [N];
    Python integers are [Z].  The font metrics ([FreeTypeFont.getsize]
    behind [_calculate_width]) and the hyphenation dictionary
    ([pyphen.Pyphen.iterate]) are collaborators outside the repository and
    are parameters of the development. *)

From Stdlib Require Import List ZArith Lia Bool String Ascii.
From Stdlib Require Import Sorting.Permutation Sorting.Sorted.
Import ListNotations.
Local Open Scope Z_scope.

(** ** Strings, slices and indexing *)

Definition char := N.
Definition str := list char.

Definition len {A : Type} (s : list A) : Z := Z.of_nat (List.length s).

(** The code points of an ASCII literal. *)
Definition lit (s : string) : str := map N_of_ascii (list_ascii_of_string s).

Definition space : char := 32%N.
Definition hyphen : char := 45%N.

(** A slice index as Python clamps it: negative indices count from the end. *)
Definition clamp (n i : Z) : nat :=
  Z.to_nat (if i <? 0 then Z.max 0 (n + i) else Z.min i n).

(** [text[:k]] *)
Definition slice_to (s : str) (k : Z) : str := firstn (clamp (len s) k) s.

(** [text[k:]] *)
Definition slice_from (s : str) (k : Z) : str := skipn (clamp (len s) k) s.

(** [text[i:j]] *)
Definition slice (s : str) (i j : Z) : str :=
  skipn (clamp (len s) i) (firstn (clamp (len s) j) s).

(** [text[i]]: [None] stands for the IndexError of an index out of range. *)
Definition get {A : Type} (s : list A) (i : Z) : option A :=
  if i <? 0 then
    if len s + i <? 0 then None else nth_error s (Z.to_nat (len s + i))
  else nth_error s (Z.to_nat i).

(** [string.ascii_letters] *)
Definition in_ascii_letters (c : char) : bool :=
  ((97 <=? c) && (c <=? 122) || (65 <=? c) && (c <=? 90))%N.

(** [Text.MARKS], the code points of the literal at line 16. *)
Definition MARKS : list char :=
  [65307; 65306; 12290; 65292; 65281; 65311; 12289;
   46; 44; 33; 63; 8221; 12299; 59; 58]%N.

Definition in_MARKS (c : char) : bool := existsb (N.eqb c) MARKS.

(** [s.lstrip(" ")] and [s.rstrip(" ")] *)
Fixpoint lstrip (s : str) : str :=
  match s with
  | c :: s' => if N.eqb c space then lstrip s' else s
  | [] => []
  end.

Definition rstrip (s : str) : str := rev (lstrip (rev s)).

(** [range(n)] *)
Definition range (n : Z) : list Z := map Z.of_nat (seq 0 (Z.to_nat n)).

(** ** Exceptions *)

(** [ValueError] is what line 69 raises (the spec's LayoutError) and what
    [max] raises on an empty sequence; [IndexError] is an index out of range;
    [OSError] is a font the loader refuses; [RecursionError] is what the
    interpreter raises when a call needs more frames than it allows. *)
Inductive exn : Type := ValueError | IndexError | OSError | RecursionError.

Inductive result (A : Type) : Type :=
| Ok (a : A)
| Raise (e : exn).
Arguments Ok {A} a.
Arguments Raise {A} e.

(** The list display [[line, *rest]] over a recursive call that may raise
    or, in the model, run out of fuel. *)
Definition cons_line (line : str) (rest : option (result (list str)))
  : option (result (list str)) :=
  match rest with
  | Some (Ok ls) => Some (Ok (line :: ls))
  | Some (Raise e) => Some (Raise e)
  | None => None
  end.

(** ** Rightmost-fit search *)

(** Modelled from the spec: [render.utils.find_rightmost] is imported at
    line 11 of text.py and is not among the sources.  The spec describes it
    as a binary search over an ordered index domain for the rightmost
    position whose key stays within the budget.  Both callers use the
    result as an insertion point: [_split_line] steps back by one when the
    prefix at the result is too wide (lines 66-67) and [_split_word] reads
    [cuts[cut_bound - 1]] and takes 0 for no candidate (lines 134-136).  The
    model is therefore the binary search for the position after the last
    element whose key is at most [x]. *)
Fixpoint find_rightmost_loop (a : list Z) (x : Z) (key : Z -> Z)
         (fuel : nat) (lo hi : Z) : Z :=
  match fuel with
  | O => lo
  | S fuel' =>
      if lo <? hi then
        let mid := (lo + hi) / 2 in
        if x <? key (nth (Z.to_nat mid) a 0) then
          find_rightmost_loop a x key fuel' lo mid
        else
          find_rightmost_loop a x key fuel' (mid + 1) hi
      else lo
  end.

Definition find_rightmost (a : list Z) (x : Z) (key : Z -> Z) : Z :=
  find_rightmost_loop a x key (List.length a) 0 (len a).

(** ** The splitters *)

(** [cuts.sort(key=lambda k: len(k[0]))]: Python's sort is stable, so the
    result is the insertion of each candidate before the later candidates
    of the same or greater prefix length. *)
Fixpoint insert_cut (c : str * str) (l : list (str * str)) : list (str * str) :=
  match l with
  | [] => [c]
  | d :: l' =>
      if len (fst c) <=? len (fst d) then c :: l else d :: insert_cut c l'
  end.

Fixpoint sort_cuts (l : list (str * str)) : list (str * str) :=
  match l with
  | [] => []
  | c :: l' => insert_cut c (sort_cuts l')
  end.


(** The loop at lines 78-79 (and 109-110): [prev] walks left over letters.
    It runs at most [prev + 1] times, which is the fuel its callers give.
    The index is within the text wherever the condition reads it. *)
Definition letter_at (text : str) (i : Z) : bool :=
  match get text i with
  | Some c => in_ascii_letters c
  | None => false
  end.

Fixpoint walk_left (text : str) (fuel : nat) (prev : Z) : Z :=
  match fuel with
  | O => prev
  | S fuel' =>
      if (prev >=? 0) && letter_at text prev
      then walk_left text fuel' (prev - 1)
      else prev
  end.

(** The loop at lines 80-81: [next] walks right over letters, at most
    [len(text) - next] times. *)
Fixpoint walk_right (text : str) (fuel : nat) (next : Z) : Z :=
  match fuel with
  | O => next
  | S fuel' =>
      if (next <? len text) && letter_at text next
      then walk_right text fuel' (next + 1)
      else next
  end.

Section Splitter.

(** [_calculate_width(font, .)] for the font in use: a memoised call of
    the font's [getsize], hence a function of the text. *)
Variable width : str -> Z.

(** [cls._dict.iterate]: the hyphenation candidates of a word as pairs
    (prefix, suffix), without the hyphen. *)
Variable iterate : str -> list (str * str).

(** [Text._split_word], lines 121-136. *)
Definition _split_word (word : str) (max_width : Z) : str * str :=
  let cuts := sort_cuts (iterate word) in
  let cut_bound :=
    find_rightmost (range (len cuts)) max_width
      (fun k => width (fst (nth (Z.to_nat k) cuts ([], [])) ++ [hyphen])) in
  if (cut_bound =? 0) || (len cuts =? 0) then ([], word)
  else
    let c := nth (Z.to_nat (cut_bound - 1)) cuts ([], []) in
    (fst c ++ [hyphen], snd c).

Variable max_width : Z.
Variable hyphenation : bool.

(** Lines 60-67: the rightmost fitting bound, stepped back by one when the
    prefix it delimits is too wide. *)
Definition fit_bound (text : str) : Z :=
  let indices := range (len text) in
  let bound :=
    find_rightmost indices max_width (fun k => width (slice_to text k)) in
  if width (slice_to text bound) >? max_width then bound - 1 else bound.

(** Lines 75-100: the cut at a word boundary.  The outcome is the bound to
    go on with, or the line and the remaining text of a hyphenated cut,
    which the function returns at once. *)
Definition word_boundary (text : str) (bound : Z) (c : char)
  : Z + (str * str) :=
  if in_ascii_letters c then
    let prev := walk_left text (Z.to_nat (bound + 1)) bound in
    let next := walk_right text (Z.to_nat (len text - bound)) bound in
    let prev := prev + 1 in
    let word := slice text prev next in
    if len word >? 1 then
      if negb hyphenation then inl prev
      else
        let '(first, second) :=
          _split_word word (max_width - width (slice_to text prev)) in
        match first with
        | [] => inl prev
        | _ => inr (slice_to text prev ++ first, second ++ slice_from text next)
        end
    else inl bound
  else inl bound.

(** Lines 103-112: a mark at the bound stays on the line when it fits, and
    otherwise takes the word before it to the next line. *)
Definition mark_boundary (text : str) (bound : Z) (c : char) : Z :=
  if in_MARKS c then
    if width (slice_to text (bound + 1)) <=? max_width then bound + 1
    else
      let prev := bound - 1 in
      let prev := walk_left text (Z.to_nat (prev + 1)) prev in
      prev + 1
  else bound.

(** [Text._split_line], lines 50-119, with [recur] for the two recursive
    calls [cls._split_line(font, ., max_width, hyphenation)]. *)
Definition split_line_body (recur : str -> option (result (list str)))
           (text : str) : option (result (list str)) :=
  if len text =? 0 then Some (Ok [])
  else
    let bound := fit_bound text in
    if bound <=? 0 then Some (Raise ValueError)
    else if bound =? len text then Some (Ok [text])
    else
      let original_bound := bound in
      match get text bound with
      | None => Some (Raise IndexError)
      | Some c =>
          match word_boundary text bound c with
          | inr (line, remaining) => cons_line line (recur remaining)
          | inl bound =>
              match get text bound with
              | None => Some (Raise IndexError)
              | Some c' =>
                  let bound := mark_boundary text bound c' in
                  let bound :=
                    if bound =? 0 then original_bound else bound in
                  cons_line (rstrip (slice_to text bound))
                    (recur (lstrip (slice_from text bound)))
              end
          end
      end.

(** The recursion of the source is on the remaining text; [fuel] bounds
    its depth, and [None] is a run that needs more. *)
Fixpoint _split_line (fuel : nat) (text : str) : option (result (list str)) :=
  match fuel with
  | O => None
  | S fuel' => split_line_body (_split_line fuel') text
  end.


(** What one call decides before it recurs: a final answer, or a line
    together with the remaining text. *)
Inductive decision : Type :=
| Stop (r : result (list str))
| Emit (line remaining : str).

Definition run (d : decision) (recur : str -> option (result (list str)))
  : option (result (list str)) :=
  match d with
  | Stop r => Some r
  | Emit line remaining => cons_line line (recur remaining)
  end.

(** The decisions a call can take on a text: the empty answer, the
    ValueError when no code point fits, the whole text when it fits, a
    hyphenated cut of the word at the bound, or a break at a bound between
    1 and the rightmost fit.  [body_step] shows that [split_line_body]
    takes one of them. *)
Inductive step (text : str) : decision -> Prop :=
| step_empty :
    text = [] -> step text (Stop (Ok []))
| step_raise :
    text <> [] -> fit_bound text <= 0 -> step text (Stop (Raise ValueError))
| step_whole :
    text <> [] -> fit_bound text = len text -> step text (Stop (Ok [text]))
| step_hyphen (prev next : Z) (p s : str) :
    hyphenation = true ->
    0 < fit_bound text < len text ->
    0 <= prev <= fit_bound text -> fit_bound text < next <= len text ->
    In (p, s) (iterate (slice text prev next)) ->
    width (p ++ [hyphen]) <= max_width - width (slice_to text prev) ->
    step text (Emit (slice_to text prev ++ (p ++ [hyphen]))
                    (s ++ slice_from text next))
| step_break (b : Z) :
    0 < fit_bound text < len text ->
    1 <= b <= fit_bound text ->
    step text (Emit (rstrip (slice_to text b)) (lstrip (slice_from text b))).

(** The loop of [Text.cut], lines 144-147.  Each physical line is split
    with the fuel that [split_line_total] shows to be enough. *)
Fixpoint cut_loop (lines : list str) (res : list str)
  : option (result (list str)) :=
  match lines with
  | [] => Some (Ok res)
  | line :: lines' =>
      match _split_line (S (List.length line)) line with
      | Some (Ok splitted) => cut_loop lines' (res ++ splitted)
      | Some (Raise e) => Some (Raise e)
      | None => None
      end
  end.

End Splitter.

(** ** The layout object *)

(** [str.splitlines()]: the line boundaries of Python's Unicode strings;
    a carriage return followed by a line feed is one boundary, and a
    boundary at the end of the text opens no further line. *)
Definition is_linebreak (c : char) : bool :=
  existsb (N.eqb c) [10; 11; 12; 13; 28; 29; 30; 133; 8232; 8233]%N.

Fixpoint splitlines_from (cur : str) (s : str) : list str :=
  match s with
  | [] => match cur with [] => [] | _ => [rev cur] end
  | c :: rest =>
      if is_linebreak c then
        rev cur ::
          match rest with
          | c' :: rest' =>
              if N.eqb c 13 && N.eqb c' 10 then splitlines_from [] rest'
              else splitlines_from [] rest
          | [] => []
          end
      else splitlines_from (c :: cur) rest
  end.

Definition splitlines (s : str) : list str := splitlines_from [] s.

(** [max] of a sequence of integers: a ValueError on the empty one. *)
Definition py_max (l : list Z) : result Z :=
  match l with
  | [] => Raise ValueError
  | x :: l' => Ok (fold_left Z.max l' x)
  end.

Inductive Alignment : Type := START | CENTER | END_.

Record RenderImage : Type := { im_width : Z; im_height : Z }.

Section Layout.

Variable Color : Type.

(** [PIL.ImageFont.truetype(font, size)]: the font object, which the
    model takes as its measure [_calculate_width(font, .)], or the
    loader's exception. *)
Variable truetype : string -> Z -> result (str -> Z).

Variable iterate : str -> list (str * str).

(** [RenderText.of(line, font, size, color).render()], from [render.base]. *)
Variable render_text : str -> string -> Z -> option Color -> result RenderImage.

Record Text : Type := {
  font : string;
  size : Z;
  alignment : Alignment;
  color : option Color;
  spacing : Z;
  hyphenation : bool;
  pre_rendered : list RenderImage
}.

(** [Text.cut], lines 138-148, on the font name, size and hyphenation
    flag it reads from [self]. *)
Definition cut (self_font : string) (self_size : Z) (self_hyphenation : bool)
           (text : str) (max_width : option Z) : option (result (list str)) :=
  let lines := splitlines text in
  match max_width with
  | None => Some (Ok lines)
  | Some max_width =>
      match truetype self_font self_size with
      | Raise e => Some (Raise e)
      | Ok font => cut_loop font iterate max_width self_hyphenation lines []
      end
  end.

(** The list comprehension of lines 39-42. *)
Fixpoint render_lines (lines : list str) (font : string) (size : Z)
         (color : option Color) : result (list RenderImage) :=
  match lines with
  | [] => Ok []
  | line :: lines' =>
      match render_text line font size color with
      | Raise e => Raise e
      | Ok im =>
          match render_lines lines' font size color with
          | Raise e => Raise e
          | Ok ims => Ok (im :: ims)
          end
      end
  end.

(** [Text.__init__], lines 19-42; the box style passed on to the base
    class plays no part in the lines. *)
Definition Text_init (text : str) (font : string) (size : Z)
           (max_width : option Z) (alignment : Alignment)
           (color : option Color) (spacing : Z) (hyphenation : bool)
  : option (result Text) :=
  match cut font size hyphenation text max_width with
  | None => None
  | Some (Raise e) => Some (Raise e)
  | Some (Ok lines) =>
      match render_lines lines font size color with
      | Raise e => Some (Raise e)
      | Ok ims =>
          Some (Ok {| font := font; size := size; alignment := alignment;
                      color := color; spacing := spacing;
                      hyphenation := hyphenation; pre_rendered := ims |})
      end
  end.

(** [Text.content_width], lines 166-169. *)
Definition content_width (self : Text) : result Z :=
  py_max (map im_width (pre_rendered self)).

(** [Text.content_height], lines 171-175. *)
Definition content_height (self : Text) : Z :=
  let sp := Z.max 0 (len (pre_rendered self) - 1) * spacing self in
  fold_right Z.add 0 (map im_height (pre_rendered self)) + sp.

End Layout.

Arguments font {Color} _.
Arguments pre_rendered {Color} _.

(** ** Contracts of the collaborators *)

(** The measure of a prefix is at most the measure of the text. *)
Definition monotone (width : str -> Z) : Prop :=
  forall (s : str) (k : nat), width (firstn k s) <= width s.

(** The measure of a concatenation is at most the sum of the measures. *)
Definition subadditive (width : str -> Z) : Prop :=
  forall a b : str, width (a ++ b) <= width a + width b.

(** Every candidate cuts its word in two, with a prefix that is not empty. *)
Definition cuts_of_word (iterate : str -> list (str * str)) : Prop :=
  forall w p s : str, In (p, s) (iterate w) -> p ++ s = w /\ p <> [].

(** The lines of a text, put back together: at a break the spaces trimmed
    on either side return, at a hyphenated cut the hyphen goes. *)
Inductive Restores : list str -> str -> Prop :=
| restores_nil : Restores [] []
| restores_break (line : str) (k : nat) (rest : str) (lines : list str) :
    Restores lines rest ->
    Restores (line :: lines) (line ++ repeat space k ++ rest)
| restores_hyphen (pre rest : str) (lines : list str) :
    Restores lines rest ->
    Restores ((pre ++ [hyphen]) :: lines) (pre ++ rest).

(** ** Sample collaborators *)

(** A font in which every code point measures 10 pixels. *)
Definition fixed10 (s : str) : Z := 10 * len s.



(** A dictionary without candidates. *)
Definition no_cuts (w : str) : list (str * str) := [].

(** A dictionary that knows two words. *)
Definition sample_cuts (w : str) : list (str * str) :=
  if list_eq_dec N.eq_dec w (lit "beautiful")
  then [(lit "beauti", lit "ful"); (lit "beau", lit "tiful")]
  else if list_eq_dec N.eq_dec w (lit "hello")
  then [(lit "hel", lit "lo")]
  else [].

(** A loader that refuses sizes that are not positive. *)
Definition strict_truetype (name : string) (size : Z) : result (str -> Z) :=
  if size <=? 0 then Raise OSError else Ok fixed10.

(** A renderer of the sample font: 10 pixels a code point, [size] high. *)
Definition sample_render (line : str) (name : string) (size : Z)
           (color : option unit) : result RenderImage :=
  if size <=? 0 then Raise OSError
  else Ok {| im_width := fixed10 line; im_height := size |}.

(** ** Crop masks *)

(** [render.decorations.crop] draws its masks with OpenCV on an array of
    zeros of the size of the image.  The model keeps the drawing calls in
    order, each with the arguments the code computes for it; every call
    fills its shape ([thickness=-1]) with 255. *)
Inductive shape : Type :=
| Circle (cx cy radius : Z)
| Rectangle (x1 y1 x2 y2 : Z).

Record ImageMask : Type := {
  mask_height : Z;
  mask_width : Z;
  shapes : list shape
}.

(** [CircleCrop.get_mask], lines 50-66 of crop.py, on [self.radius].  The
    centre is the pair the code hands to [cv2.circle], which reads it as
    (x, y).  The model is the call; a radius below 0, which OpenCV refuses,
    is outside the properties stated of it. *)
Definition CircleCrop_get_mask (self_radius : option Z) (obj : RenderImage)
  : ImageMask :=
  let radius :=
    match self_radius with
    | None => Z.min (im_height obj) (im_width obj) / 2
    | Some r => r
    end in
  {| mask_height := im_height obj;
     mask_width := im_width obj;
     shapes := [Circle (im_height obj / 2) (im_width obj / 2) radius] |}.

Record RectCrop : Type := {
  rect_width : option Z;
  rect_height : option Z;
  border_radius : Z
}.

(** [RectCrop.of_square], lines 94-101 of crop.py. *)
Definition RectCrop_of_square (size : option Z) (border_radius : Z) : RectCrop :=
  {| rect_width := size; rect_height := size; border_radius := border_radius |}.

(** [RectCrop.get_mask], lines 103-157 of crop.py. *)
Definition RectCrop_get_mask (self : RectCrop) (obj : RenderImage) : ImageMask :=
  let height :=
    match rect_height self with Some h => h | None => im_height obj end in
  let width :=
    match rect_width self with Some w => w | None => im_width obj end in
  let start_x := (im_width obj - width) / 2 in
  let start_y := (im_height obj - height) / 2 in
  if border_radius self =? 0 then
    {| mask_height := im_height obj;
       mask_width := im_width obj;
       shapes := [Rectangle start_x start_y (start_x + width) (start_y + height)] |}
  else
    let border_radius :=
      if border_radius self >? Z.min width height / 2
      then Z.min width height / 2
      else border_radius self in
    let corners :=
      [(start_x + border_radius, start_y + border_radius);
       (start_x + border_radius, start_y + height - border_radius);
       (start_x + width - border_radius, start_y + border_radius);
       (start_x + width - border_radius, start_y + height - border_radius)] in
    {| mask_height := im_height obj;
       mask_width := im_width obj;
       shapes :=
         map (fun corner => Circle (fst corner) (snd corner) border_radius) corners
         ++ [Rectangle start_x (start_y + border_radius)
               (start_x + width) (start_y + height - border_radius);
             Rectangle (start_x + border_radius) start_y
               (start_x + width - border_radius) (start_y + height)] |}.

(** A shape lies within the box from [(x1, y1)] to [(x2, y2)], both corners
    counted in: a circle by its centre and radius, a rectangle by its two
    corners.  OpenCV fills a circle from the centre less the radius to the
    centre plus the radius and a rectangle from corner to corner; the
    pixels of an image of [w] columns and [h] rows are the box from
    [(0, 0)] to [(w - 1, h - 1)]. *)
Definition within (x1 y1 x2 y2 : Z) (s : shape) : Prop :=
  match s with
  | Circle cx cy r =>
      0 <= r /\ x1 <= cx - r /\ cx + r <= x2 /\ y1 <= cy - r /\ cy + r <= y2
  | Rectangle a b c d =>
      x1 <= a <= x2 /\ x1 <= c <= x2 /\ y1 <= b <= y2 /\ y1 <= d <= y2
  end.

(** ** Shapes of lines *)

(** A line that begins with a code point other than the space. *)
Definition starts_without_space (line : str) : Prop :=
  exists c rest, line = c :: rest /\ c <> space.

(** * Properties *)

(** ** Lists, slices and trimming *)

Lemma len_nonneg {A : Type} (s : list A) : 0 <= len s.
Proof. unfold len; lia. Qed.

Lemma len_app {A : Type} (s t : list A) : len (s ++ t) = len s + len t.
Proof. unfold len; rewrite length_app; lia. Qed.

Lemma len_zero {A : Type} (s : list A) : len s = 0 <-> s = [].
Proof.
  unfold len; split; intros H.
  - destruct s; [reflexivity | simpl in H; lia].
  - subst; reflexivity.
Qed.

Lemma clamp_in_range (n i : Z) : 0 <= i <= n -> clamp n i = Z.to_nat i.
Proof.
  intros H; unfold clamp.
  destruct (Z.ltb_spec i 0); [lia |].
  rewrite Z.min_l by lia; reflexivity.
Qed.

Lemma slice_to_firstn (s : str) (k : Z) :
  0 <= k <= len s -> slice_to s k = firstn (Z.to_nat k) s.
Proof. intros H; unfold slice_to; rewrite clamp_in_range by lia; reflexivity. Qed.

Lemma slice_from_skipn (s : str) (k : Z) :
  0 <= k <= len s -> slice_from s k = skipn (Z.to_nat k) s.
Proof. intros H; unfold slice_from; rewrite clamp_in_range by lia; reflexivity. Qed.

Lemma slice_to_is_prefix (s : str) (k : Z) : exists j, slice_to s k = firstn j s.
Proof. unfold slice_to; eauto. Qed.

Lemma slice_to_all (s : str) : slice_to s (len s) = s.
Proof.
  rewrite slice_to_firstn by (pose proof (len_nonneg s); lia).
  unfold len; rewrite Nat2Z.id; apply firstn_all.
Qed.

Lemma len_slice_to (s : str) (k : Z) : 0 <= k <= len s -> len (slice_to s k) = k.
Proof.
  intros H; rewrite slice_to_firstn by lia.
  unfold len in *; rewrite length_firstn; lia.
Qed.

Lemma len_slice_from (s : str) (k : Z) :
  0 <= k <= len s -> len (slice_from s k) = len s - k.
Proof.
  intros H; rewrite slice_from_skipn by lia.
  unfold len in *; rewrite length_skipn; lia.
Qed.

Lemma slice_to_from (s : str) (k : Z) : slice_to s k ++ slice_from s k = s.
Proof. unfold slice_to, slice_from; apply firstn_skipn. Qed.

(** A text is its prefix before a word, the word and the rest. *)
Lemma slice_three (s : str) (i j : Z) :
  0 <= i <= j -> j <= len s ->
  slice_to s i ++ slice s i j ++ slice_from s j = s.
Proof.
  intros Hi Hj.
  unfold slice; rewrite slice_to_firstn, slice_from_skipn by lia.
  rewrite !clamp_in_range by lia.
  rewrite <- (firstn_skipn (Z.to_nat j) s) at 4.
  rewrite app_assoc; f_equal.
  rewrite <- (firstn_skipn (Z.to_nat i) (firstn (Z.to_nat j) s)) at 2.
  f_equal.
  rewrite firstn_firstn; f_equal; lia.
Qed.

Lemma len_slice (s : str) (i j : Z) :
  0 <= i <= j -> j <= len s -> len (slice s i j) = j - i.
Proof.
  intros Hi Hj; unfold slice.
  rewrite !clamp_in_range by lia.
  unfold len in *; rewrite length_skipn, length_firstn; lia.
Qed.

Lemma get_in_range {A : Type} (s : list A) (i : Z) :
  0 <= i < len s -> exists c, get s i = Some c.
Proof.
  intros H; unfold get.
  destruct (Z.ltb_spec i 0); [lia |].
  destruct (nth_error s (Z.to_nat i)) eqn:E; [eauto |].
  apply nth_error_None in E; unfold len in H; lia.
Qed.

Lemma get_nth_error {A : Type} (s : list A) (i : Z) :
  0 <= i -> get s i = nth_error s (Z.to_nat i).
Proof. intros H; unfold get; destruct (Z.ltb_spec i 0); [lia | reflexivity]. Qed.

Lemma lstrip_spaces (s : str) :
  exists k, s = repeat space k ++ lstrip s.
Proof.
  induction s as [| c s [k IH]]; simpl.
  - exists 0%nat; reflexivity.
  - destruct (N.eqb_spec c space) as [-> | _].
    + exists (S k); simpl; f_equal; exact IH.
    + exists 0%nat; reflexivity.
Qed.

Lemma rev_repeat {A : Type} (x : A) (k : nat) : rev (repeat x k) = repeat x k.
Proof.
  induction k as [| k IH]; simpl; [reflexivity |].
  rewrite IH; symmetry; apply repeat_cons.
Qed.

Lemma rstrip_spaces (s : str) :
  exists k, s = rstrip s ++ repeat space k.
Proof.
  unfold rstrip.
  destruct (lstrip_spaces (rev s)) as [k Hk]; exists k.
  rewrite <- (rev_involutive s) at 1.
  rewrite Hk at 1.
  rewrite rev_app_distr, rev_repeat; reflexivity.
Qed.

Lemma rstrip_is_prefix (s : str) : exists j, rstrip s = firstn j s.
Proof.
  destruct (rstrip_spaces s) as [k Hk].
  exists (List.length (rstrip s)).
  remember (rstrip s) as r eqn:Hr; clear Hr.
  rewrite Hk, firstn_app, firstn_all, Nat.sub_diag; simpl.
  rewrite app_nil_r; reflexivity.
Qed.

Lemma length_lstrip (s : str) : (List.length (lstrip s) <= List.length s)%nat.
Proof.
  destruct (lstrip_spaces s) as [k Hk].
  rewrite Hk at 2; rewrite length_app; lia.
Qed.

Lemma range_length (n : Z) : 0 <= n -> len (range n) = n.
Proof.
  intros H; unfold len, range; rewrite length_map, length_seq; lia.
Qed.

Lemma range_nth (n i : Z) :
  0 <= i < n -> nth (Z.to_nat i) (range n) 0 = i.
Proof.
  intros H; unfold range.
  change 0 with (Z.of_nat 0) at 1.
  rewrite map_nth, seq_nth by lia; lia.
Qed.

(** ** Rightmost-fit search *)

(** The loop invariant of the search: the key just left of [lo] is within
    the budget and the key at [hi] is beyond it, without any assumption on
    the keys. *)
Lemma find_rightmost_loop_inv (a : list Z) (x : Z) (key : Z -> Z) :
  forall (fuel : nat) (lo hi : Z),
    0 <= lo <= hi -> hi <= len a ->
    hi - lo <= Z.of_nat fuel ->
    (lo = 0 \/ key (nth (Z.to_nat (lo - 1)) a 0) <= x) ->
    (hi = len a \/ x < key (nth (Z.to_nat hi) a 0)) ->
    let r := find_rightmost_loop a x key fuel lo hi in
    lo <= r <= hi /\
    (r = 0 \/ key (nth (Z.to_nat (r - 1)) a 0) <= x) /\
    (r = len a \/ x < key (nth (Z.to_nat r) a 0)).
Proof.
  induction fuel as [| fuel IH]; intros lo hi Hlo Hhi Hfuel Hleft Hright; simpl.
  - assert (lo = hi) by lia; subst hi.
    repeat split; try lia; assumption.
  - destruct (Z.ltb_spec lo hi) as [Hlt | Hge].
    + assert (Hmid : lo <= (lo + hi) / 2 < hi).
      { split; [apply Z.div_le_lower_bound | apply Z.div_lt_upper_bound]; lia. }
      destruct (Z.ltb_spec x (key (nth (Z.to_nat ((lo + hi) / 2)) a 0)))
        as [Hbig | Hfit].
      * assert (IH' := IH lo ((lo + hi) / 2) ltac:(lia) ltac:(lia) ltac:(lia)
                         Hleft (or_intror Hbig)).
        cbv zeta in IH'; destruct IH' as (Hr & Hl & Hh).
        repeat split; try lia; assumption.
      * assert (Hleft' : (lo + hi) / 2 + 1 = 0 \/
                         key (nth (Z.to_nat ((lo + hi) / 2 + 1 - 1)) a 0) <= x).
        { right; replace ((lo + hi) / 2 + 1 - 1) with ((lo + hi) / 2) by lia.
          exact Hfit. }
        assert (IH' := IH ((lo + hi) / 2 + 1) hi ltac:(lia) ltac:(lia) ltac:(lia)
                         Hleft' Hright).
        cbv zeta in IH'; destruct IH' as (Hr & Hl & Hh).
        repeat split; try lia; assumption.
    + assert (lo = hi) by lia; subst hi.
      repeat split; try lia; assumption.
Qed.

(** The search over [range(n)]: the result [r] lies in [0..n], the key at
    [r - 1] fits and the key at [r] does not. *)
Lemma find_rightmost_range (n x : Z) (key : Z -> Z) :
  0 <= n ->
  let r := find_rightmost (range n) x key in
  0 <= r <= n /\ (r = 0 \/ key (r - 1) <= x) /\ (r = n \/ x < key r).
Proof.
  intros Hn r.
  pose proof (find_rightmost_loop_inv (range n) x key
                (List.length (range n)) 0 (len (range n))) as H.
  cbv zeta in H; fold (find_rightmost (range n) x key) in H; fold r in H.
  rewrite range_length in H by lia.
  assert (Hlen : n - 0 <= Z.of_nat (List.length (range n))).
  { pose proof (range_length n Hn) as E; unfold len in E; lia. }
  specialize (H ltac:(lia) ltac:(lia) Hlen (or_introl eq_refl) (or_introl eq_refl)).
  destruct H as (Hr & Hl & Hh).
  repeat split; try lia.
  - destruct Hl as [-> | Hl]; [left; reflexivity |].
    destruct (Z.eq_dec r 0) as [-> | Hr0]; [left; reflexivity | right].
    rewrite range_nth in Hl by lia; exact Hl.
  - destruct Hh as [-> | Hh]; [left; reflexivity |].
    destruct (Z.eq_dec r n) as [-> | Hrn]; [left; reflexivity | right].
    rewrite range_nth in Hh by lia; exact Hh.
Qed.


(** ** The walks over a word *)

Lemma walk_left_range (text : str) :
  forall (fuel : nat) (p : Z),
    p - Z.of_nat fuel <= walk_left text fuel p <= p.
Proof.
  induction fuel as [| fuel IH]; intros p; simpl; [lia |].
  destruct ((p >=? 0) && letter_at text p); [| lia].
  specialize (IH (p - 1)); lia.
Qed.

Lemma walk_left_steps (text : str) (fuel : nat) (p : Z) :
  0 <= p -> letter_at text p = true ->
  walk_left text (S fuel) p <= p - 1.
Proof.
  intros Hp Hl; simpl.
  destruct (Z.geb_spec p 0); [| lia].
  rewrite Hl; simpl.
  pose proof (walk_left_range text fuel (p - 1)); lia.
Qed.

Lemma walk_right_range (text : str) :
  forall (fuel : nat) (p : Z),
    p <= walk_right text fuel p <= Z.max p (len text).
Proof.
  induction fuel as [| fuel IH]; intros p; simpl; [lia |].
  destruct (Z.ltb_spec p (len text)); simpl; [| lia].
  destruct (letter_at text p); [| lia].
  specialize (IH (p + 1)); lia.
Qed.

Lemma walk_right_steps (text : str) (fuel : nat) (p : Z) :
  p < len text -> letter_at text p = true ->
  p + 1 <= walk_right text (S fuel) p.
Proof.
  intros Hp Hl; simpl.
  destruct (Z.ltb_spec p (len text)); [| lia].
  rewrite Hl; simpl.
  pose proof (walk_right_range text fuel (p + 1)); lia.
Qed.

(** Every position the leftward walk passes holds a letter. *)
Lemma walk_left_letters (text : str) :
  forall (fuel : nat) (p i : Z),
    walk_left text fuel p < i <= p -> letter_at text i = true.
Proof.
  induction fuel as [| fuel IH]; intros p i Hi; simpl in Hi; [lia |].
  destruct (Z.geb_spec p 0); simpl in Hi; [| lia].
  destruct (letter_at text p) eqn:Hl; [| lia].
  destruct (Z.eq_dec i p) as [-> | Hne]; [exact Hl |].
  apply (IH (p - 1)); lia.
Qed.

(** ** The sorted candidates *)

Lemma insert_cut_perm (c : str * str) (l : list (str * str)) :
  Permutation (c :: l) (insert_cut c l).
Proof.
  induction l as [| d l IH]; simpl; [reflexivity |].
  destruct (len (fst c) <=? len (fst d)); [reflexivity |].
  rewrite perm_swap; apply perm_skip; exact IH.
Qed.

Lemma sort_cuts_perm (l : list (str * str)) : Permutation l (sort_cuts l).
Proof.
  induction l as [| c l IH]; simpl; [reflexivity |].
  rewrite <- insert_cut_perm; apply perm_skip; exact IH.
Qed.

Lemma sort_cuts_In (l : list (str * str)) (c : str * str) :
  In c (sort_cuts l) <-> In c l.
Proof.
  split; apply Permutation_in;
    [symmetry |]; apply sort_cuts_perm.
Qed.




(** ** One call of the splitters *)

Lemma letter_not_mark (c : char) : in_MARKS c = true -> in_ascii_letters c = false.
Proof.
  unfold in_MARKS; rewrite existsb_exists.
  intros (m & Hin & Heq); apply N.eqb_eq in Heq; subst m.
  simpl in Hin.
  repeat (destruct Hin as [<- | Hin]; [reflexivity |]).
  contradiction.
Qed.

(** With the fuel its callers give, the leftward walk ends before the text
    or on a code point that is not a letter. *)
Lemma walk_left_stops (text : str) :
  forall (fuel : nat) (p : Z),
    p + 1 <= Z.of_nat fuel ->
    walk_left text fuel p < 0 \/ letter_at text (walk_left text fuel p) = false.
Proof.
  induction fuel as [| fuel IH]; intros p Hp; simpl; [left; lia |].
  destruct (Z.geb_spec p 0) as [Hge | Hlt]; simpl; [| left; lia].
  destruct (letter_at text p) eqn:Hl; [| right; exact Hl].
  apply IH; lia.
Qed.

Lemma letter_is_no_mark (c : char) : in_ascii_letters c = true -> in_MARKS c = false.
Proof.
  intros Hl; destruct (in_MARKS c) eqn:Hm; [| reflexivity].
  apply letter_not_mark in Hm; congruence.
Qed.

Section SplitterFacts.

Variable width : str -> Z.
Variable iterate : str -> list (str * str).

(** The word splitter answers "no cut" or a candidate of the dictionary
    whose hyphenated prefix is within the budget. *)
Lemma split_word_cases (word : str) (budget : Z) :
  _split_word width iterate word budget = ([], word) \/
  exists p s,
    In (p, s) (iterate word) /\ width (p ++ [hyphen]) <= budget /\
    _split_word width iterate word budget = (p ++ [hyphen], s).
Proof.
  unfold _split_word; cbv zeta.
  set (cuts := sort_cuts (iterate word)).
  set (key := fun k : Z => width (fst (nth (Z.to_nat k) cuts ([], [])) ++ [hyphen])).
  destruct (find_rightmost_range (len cuts) budget key (len_nonneg cuts))
    as (Hr & Hl & _).
  set (r := find_rightmost (range (len cuts)) budget key) in *.
  destruct (Z.eqb_spec r 0) as [| Hr0]; simpl; [left; reflexivity |].
  destruct (Z.eqb_spec (len cuts) 0) as [| Hn0]; simpl; [left; reflexivity |].
  right.
  destruct Hl as [| Hl]; [lia |].
  exists (fst (nth (Z.to_nat (r - 1)) cuts ([], []))),
         (snd (nth (Z.to_nat (r - 1)) cuts ([], []))).
  rewrite <- surjective_pairing.
  repeat split.
  - apply sort_cuts_In; fold cuts; apply nth_In; unfold len in *; lia.
  - exact Hl.
Qed.

Variable max_width : Z.
Variable hyphenation : bool.

Local Abbreviation fit := (fit_bound width max_width).
Local Abbreviation at_word := (word_boundary width iterate max_width hyphenation).
Local Abbreviation at_mark := (mark_boundary width max_width).
Local Abbreviation body := (split_line_body width iterate max_width hyphenation).
Local Abbreviation split := (_split_line width iterate max_width hyphenation).
Local Abbreviation step := (step width iterate max_width hyphenation).

Lemma fit_bound_range (text : str) : -1 <= fit text <= len text.
Proof.
  unfold fit_bound; cbv zeta.
  destruct (find_rightmost_range (len text) max_width
              (fun k => width (slice_to text k)) (len_nonneg text)) as (Hr & _).
  destruct (_ >? _); lia.
Qed.

(** The prefix at the bound is within the budget. *)
Lemma fit_bound_fits (text : str) :
  0 <= fit text -> width (slice_to text (fit text)) <= max_width.
Proof.
  unfold fit_bound; cbv zeta.
  destruct (find_rightmost_range (len text) max_width
              (fun k => width (slice_to text k)) (len_nonneg text))
    as (Hr & Hl & _).
  set (r := find_rightmost _ _ _) in *.
  destruct (Z.gtb_spec (width (slice_to text r)) max_width) as [Hgt | Hle].
  - intros H; destruct Hl as [| Hl]; [lia | exact Hl].
  - intros _; exact Hle.
Qed.

(** The prefix one code point longer is not. *)
Lemma fit_bound_rightmost (text : str) :
  fit text < len text ->
  max_width < width (slice_to text (fit text + 1)).
Proof.
  unfold fit_bound; cbv zeta.
  destruct (find_rightmost_range (len text) max_width
              (fun k => width (slice_to text k)) (len_nonneg text))
    as (Hr & _ & Hh).
  set (r := find_rightmost _ _ _) in *.
  destruct (Z.gtb_spec (width (slice_to text r)) max_width) as [Hgt | Hle].
  - intros _; replace (r - 1 + 1) with r by lia; lia.
  - intros H; destruct Hh as [| Hh]; lia.
Qed.

(** The outcomes of the cut at a word boundary: a bound that stays or moves
    left to a letter, or a hyphenated cut at a candidate that fits what the
    text before the word leaves of the budget. *)
Lemma word_boundary_cases (text : str) (b : Z) (c : char) :
  0 < b < len text -> get text b = Some c ->
  (exists b', at_word text b c = inl b' /\ 0 <= b' <= b /\
              (b' = b \/ letter_at text b' = true)) \/
  (exists prev next p s,
      hyphenation = true /\ 0 <= prev <= b /\ b < next <= len text /\
      In (p, s) (iterate (slice text prev next)) /\
      width (p ++ [hyphen]) <= max_width - width (slice_to text prev) /\
      at_word text b c =
        inr (slice_to text prev ++ (p ++ [hyphen]), s ++ slice_from text next)).
Proof.
  intros Hb Hc; unfold word_boundary.
  destruct (in_ascii_letters c) eqn:Hletter;
    [| left; exists b; repeat split; auto; lia].
  assert (Hat : letter_at text b = true) by (unfold letter_at; rewrite Hc; exact Hletter).
  cbv zeta.
  set (prev := walk_left text (Z.to_nat (b + 1)) b + 1).
  set (next := walk_right text (Z.to_nat (len text - b)) b).
  assert (Hprev : 0 <= prev <= b).
  { unfold prev.
    pose proof (walk_left_range text (Z.to_nat (b + 1)) b).
    replace (Z.to_nat (b + 1)) with (S (Z.to_nat b)) in * by lia.
    pose proof (walk_left_steps text (Z.to_nat b) b ltac:(lia) Hat); lia. }
  assert (Hnext : b < next <= len text).
  { unfold next.
    pose proof (walk_right_range text (Z.to_nat (len text - b)) b).
    replace (Z.to_nat (len text - b)) with (S (Z.to_nat (len text - b - 1))) in * by lia.
    pose proof (walk_right_steps text (Z.to_nat (len text - b - 1)) b ltac:(lia) Hat).
    lia. }
  assert (Hprev_letter : letter_at text prev = true).
  { apply (walk_left_letters text (Z.to_nat (b + 1)) b); unfold prev in *; lia. }
  destruct (len (slice text prev next) >? 1);
    [| left; exists b; repeat split; auto; lia].
  destruct hyphenation; simpl;
    [| left; exists prev; repeat split; auto; lia].
  destruct (split_word_cases (slice text prev next)
              (max_width - width (slice_to text prev)))
    as [E | (p & s & Hin & Hfit & E)]; rewrite E.
  - left; exists prev; repeat split; auto; lia.
  - destruct (p ++ [hyphen]) as [| h t] eqn:Ep;
      [destruct p; discriminate |].
    right; exists prev, next, p, s.
    rewrite Ep; repeat split; auto; lia.
Qed.

(** The bound after the mark rule never passes the bound it started from:
    at the rightmost fit the prefix with the mark is too wide, and a bound
    moved to the start of a word holds a letter. *)
Lemma mark_boundary_range (text : str) (b : Z) (c : char) :
  0 <= b <= fit text -> fit text < len text ->
  get text b = Some c ->
  (b = fit text \/ letter_at text b = true) ->
  0 <= at_mark text b c <= b.
Proof.
  intros Hb Hfit Hc Hor; unfold mark_boundary.
  destruct (in_MARKS c) eqn:Hm; [| lia].
  destruct Hor as [-> | Hl].
  - pose proof (fit_bound_rightmost text Hfit) as Hwide.
    destruct (Z.leb_spec (width (slice_to text (fit text + 1))) max_width);
      [lia |].
    cbv zeta.
    pose proof (walk_left_range text (Z.to_nat (fit text - 1 + 1)) (fit text - 1)).
    lia.
  - unfold letter_at in Hl; rewrite Hc in Hl.
    apply letter_not_mark in Hm; congruence.
Qed.

Lemma body_step (text : str) :
  exists d, step text d /\ forall recur, body recur text = run d recur.
Proof.
  unfold split_line_body.
  destruct (Z.eqb_spec (len text) 0) as [H0 | H0].
  { exists (Stop (Ok [])); split; [| reflexivity].
    apply step_empty, len_zero, H0. }
  assert (Hne : text <> []) by (intros ->; apply H0; reflexivity).
  cbv zeta.
  pose proof (fit_bound_range text) as Hrange.
  destruct (Z.leb_spec (fit text) 0) as [Hle | Hpos].
  { exists (Stop (Raise ValueError)); split; [| reflexivity].
    apply step_raise; assumption. }
  destruct (Z.eqb_spec (fit text) (len text)) as [Hall | Hpart].
  { exists (Stop (Ok [text])); split; [| reflexivity].
    apply step_whole; assumption. }
  destruct (get_in_range text (fit text) ltac:(lia)) as [c Hc]; rewrite Hc.
  destruct (word_boundary_cases text (fit text) c ltac:(lia) Hc)
    as [(b' & E & Hb' & Hor) | (prev & next & p & s & Hh & Hprev & Hnext & Hin & Hw & E)];
    rewrite E.
  - destruct (get_in_range text b' ltac:(lia)) as [c' Hc']; rewrite Hc'.
    pose proof (mark_boundary_range text b' c' Hb' ltac:(lia) Hc' Hor) as Hm.
    destruct (Z.eqb_spec (at_mark text b' c') 0) as [Hz | Hnz].
    + exists (Emit (rstrip (slice_to text (fit text)))
                   (lstrip (slice_from text (fit text)))).
      split; [apply step_break; lia | reflexivity].
    + exists (Emit (rstrip (slice_to text (at_mark text b' c')))
                   (lstrip (slice_from text (at_mark text b' c')))).
      split; [apply step_break; lia | reflexivity].
  - exists (Emit (slice_to text prev ++ (p ++ [hyphen])) (s ++ slice_from text next)).
    split; [apply step_hyphen; auto; lia | reflexivity].
Qed.


(** The remaining text of a call is strictly shorter than its text: the
    bound of a break is at least 1, and a hyphenated cut leaves less than the
    word it cuts. *)
Lemma step_shorter (text line rem : str) :
  (hyphenation = true -> cuts_of_word iterate) ->
  step text (Emit line rem) -> len rem < len text.
Proof.
  intros Hcuts Hs; remember (Emit line rem) as d eqn:Ed.
  destruct Hs as [| | | prev next p s Hh Hfit Hprev Hnext Hin Hw | b Hfit Hb];
    try discriminate; injection Ed as <- <-.
  - destruct (Hcuts Hh _ _ _ Hin) as [Hps Hp].
    assert (Hlen : len p + len s = next - prev).
    { rewrite <- len_app, Hps; apply len_slice; lia. }
    assert (0 < len p).
    { pose proof (len_nonneg p); destruct (Z.eq_dec (len p) 0) as [E |]; [| lia].
      apply len_zero in E; contradiction. }
    rewrite len_app, len_slice_from by lia; lia.
  - pose proof (length_lstrip (slice_from text b)) as Hl.
    pose proof (len_slice_from text b ltac:(lia)) as Hf.
    unfold len in *; lia.
Qed.

(** A call on a text of length at most [n] answers within [S n] levels, and
    with at most as many lines as the text has code points. *)
Lemma split_line_total :
  (hyphenation = true -> cuts_of_word iterate) ->
  forall (n : nat) (text : str),
    (List.length text <= n)%nat ->
    exists r, split (S n) text = Some r /\
              forall lines, r = Ok lines ->
                            (List.length lines <= List.length text)%nat.
Proof.
  intros Hcuts; induction n as [| n IH]; intros text Hn.
  - destruct text; [| simpl in Hn; lia].
    exists (Ok []); split; [reflexivity |].
    intros lines [= <-]; simpl; lia.
  - change (split (S (S n)) text) with (body (split (S n)) text).
    destruct (body_step text) as (d & Hd & E); rewrite E.
    destruct d as [r | line rem]; unfold run.
    + exists r; split; [reflexivity |].
      intros lines ->.
      inversion Hd; subst; simpl; try lia.
      destruct text; [contradiction | simpl; lia].
    + pose proof (step_shorter text line rem Hcuts Hd) as Hlt.
      destruct (IH rem) as (r & Er & Hr); [unfold len in Hlt; lia |].
      rewrite Er.
      destruct r as [ls | e]; simpl.
      * exists (Ok (line :: ls)); split; [reflexivity |].
        intros lines [= <-]; simpl.
        specialize (Hr ls eq_refl); unfold len in Hlt; lia.
      * exists (Raise e); split; [reflexivity |].
        intros lines H; discriminate.
Qed.


(** The line and the remaining text of a call, against its text. *)
Lemma step_emit_shape (text line rem : str) :
  (hyphenation = true ->
   forall w p s, In (p, s) (iterate w) -> p ++ s = w) ->
  step text (Emit line rem) ->
  (exists k, text = line ++ repeat space k ++ rem) \/
  (hyphenation = true /\ exists pre, line = pre ++ [hyphen] /\ text = pre ++ rem).
Proof.
  intros Hcuts Hs; remember (Emit line rem) as d eqn:Ed.
  destruct Hs as [| | | prev next p s Hh Hfit Hprev Hnext Hin Hw | b Hfit Hb];
    try discriminate; injection Ed as <- <-.
  - right; split; [exact Hh |].
    exists (slice_to text prev ++ p); split; [apply app_assoc |].
    rewrite <- app_assoc, (app_assoc p), (Hcuts Hh _ _ _ Hin).
    symmetry; apply slice_three; lia.
  - left.
    destruct (rstrip_spaces (slice_to text b)) as [k1 H1].
    destruct (lstrip_spaces (slice_from text b)) as [k2 H2].
    exists (k1 + k2)%nat.
    rewrite repeat_app, <- app_assoc, (app_assoc (rstrip _)), <- H1, <- H2.
    symmetry; apply slice_to_from.
Qed.

(** Under a measure monotone on prefixes, and subadditive where hyphenated
    cuts are made, every line of an answer is within the budget, and the
    only exception raised is the ValueError of line 69. *)
Lemma split_line_width :
  monotone width -> (hyphenation = true -> subadditive width) ->
  forall (f : nat) (text : str) (r : result (list str)),
    split f text = Some r ->
    match r with
    | Ok lines => Forall (fun line => width line <= max_width) lines
    | Raise e => e = ValueError
    end.
Proof.
  intros Hmono Hsub; induction f as [| f IH]; intros text r H; [discriminate |].
  change (split (S f) text) with (body (split f) text) in H.
  destruct (body_step text) as (d & Hd & E); rewrite E in H; clear E.
  destruct Hd as [| | Hne Hall | prev next p s Hh Hfit Hprev Hnext Hin Hw | b Hfit Hb];
    unfold run in H.
  - injection H as <-; constructor.
  - injection H as <-; reflexivity.
  - injection H as <-; constructor; [| constructor].
    pose proof (fit_bound_fits text) as Hf.
    rewrite Hall, slice_to_all in Hf; apply Hf, len_nonneg.
  - destruct (split f (s ++ slice_from text next)) as [[ls | e] |] eqn:Er;
      try discriminate; injection H as <-; specialize (IH _ _ Er); [| exact IH].
    constructor; [| exact IH].
    pose proof (Hsub Hh (slice_to text prev) (p ++ [hyphen])); lia.
  - destruct (split f (lstrip (slice_from text b))) as [[ls | e] |] eqn:Er;
      try discriminate; injection H as <-; specialize (IH _ _ Er); [| exact IH].
    constructor; [| exact IH].
    destruct (rstrip_is_prefix (slice_to text b)) as [j ->].
    pose proof (Hmono (slice_to text b) j) as H1.
    pose proof (fit_bound_fits text ltac:(lia)) as H2.
    assert (Hpre : slice_to text b = firstn (Z.to_nat b) (slice_to text (fit text))).
    { rewrite !slice_to_firstn by lia.
      rewrite firstn_firstn, Nat.min_l by lia; reflexivity. }
    pose proof (Hmono (slice_to text (fit text)) (Z.to_nat b)) as H3.
    rewrite <- Hpre in H3; lia.
Qed.

(** The lines of an answer restore the text. *)
Lemma split_line_restores :
  (hyphenation = true ->
   forall w p s, In (p, s) (iterate w) -> p ++ s = w) ->
  forall (f : nat) (text : str) (lines : list str),
    split f text = Some (Ok lines) -> Restores lines text.
Proof.
  intros Hcuts; induction f as [| f IH]; intros text lines H; [discriminate |].
  change (split (S f) text) with (body (split f) text) in H.
  destruct (body_step text) as (d & Hd & E); rewrite E in H; clear E.
  destruct d as [r | line rem]; unfold run in H.
  - remember (Stop r) as d eqn:Ed.
    destruct Hd as [-> | | Hne Hall | |]; try discriminate;
      injection Ed as <-; try discriminate; injection H as <-.
    + constructor.
    + rewrite <- (app_nil_r text) at 2.
      apply (restores_break text 0 [] []); constructor.
  - destruct (split f rem) as [[ls | e] |] eqn:Er; try discriminate.
    injection H as <-; specialize (IH _ _ Er).
    destruct (step_emit_shape text line rem Hcuts Hd)
      as [(k & ->) | (_ & pre & -> & ->)]; constructor; exact IH.
Qed.

(** Without hyphenation every line is a piece of the text. *)
Lemma split_line_pieces :
  hyphenation = false ->
  forall (f : nat) (text : str) (lines : list str),
    split f text = Some (Ok lines) ->
    forall line, In line lines -> exists a b, text = a ++ line ++ b.
Proof.
  intros Hoff; induction f as [| f IH]; intros text lines H line Hin; [discriminate |].
  change (split (S f) text) with (body (split f) text) in H.
  destruct (body_step text) as (d & Hd & E); rewrite E in H; clear E.
  destruct d as [r | l rem]; unfold run in H.
  - remember (Stop r) as d eqn:Ed.
    destruct Hd as [-> | | Hne Hall | |]; try discriminate;
      injection Ed as <-; try discriminate; injection H as <-.
    + destruct Hin.
    + destruct Hin as [<- | []].
      exists [], []; rewrite app_nil_r; reflexivity.
  - destruct (split f rem) as [[ls | e] |] eqn:Er; try discriminate.
    injection H as <-.
    destruct (step_emit_shape text l rem) as [(k & ->) | (Hon & _)];
      [congruence | exact Hd | | congruence].
    destruct Hin as [<- | Hin].
    + exists [], (repeat space k ++ rem); reflexivity.
    + destruct (IH _ _ Er line Hin) as (a & b & ->).
      exists (l ++ repeat space k ++ a), b.
      rewrite <- !app_assoc; reflexivity.
Qed.

(** The call raises exactly when the first code point alone is too wide. *)
Lemma fit_bound_first (text : str) :
  monotone width -> text <> [] ->
  (fit text <= 0 <-> max_width < width (slice_to text 1)).
Proof.
  intros Hmono Hne.
  assert (Hlen : 1 <= len text).
  { pose proof (len_nonneg text); destruct (Z.eq_dec (len text) 0) as [E |]; [| lia].
    apply len_zero in E; contradiction. }
  pose proof (fit_bound_range text) as Hr.
  split; intros H.
  - pose proof (fit_bound_rightmost text ltac:(lia)) as Hw.
    destruct (Z.eq_dec (fit text) 0) as [E | E]; [rewrite E in Hw; exact Hw |].
    replace (fit text + 1) with 0 in Hw by lia.
    pose proof (Hmono (slice_to text 1) 0%nat) as H0.
    rewrite slice_to_firstn in Hw by lia; simpl in *; lia.
  - destruct (Z.le_gt_cases (fit text) 0) as [| Hpos]; [assumption | exfalso].
    pose proof (fit_bound_fits text ltac:(lia)) as Hf.
    pose proof (Hmono (slice_to text (fit text)) 1%nat) as H1.
    assert (E : slice_to text 1 = firstn 1 (slice_to text (fit text))).
    { rewrite !slice_to_firstn by lia.
      rewrite firstn_firstn, Nat.min_l by lia; reflexivity. }
    rewrite <- E in H1; lia.
Qed.

Lemma split_line_raises (text : str) (f : nat) :
  monotone width -> text <> [] ->
  max_width < width (slice_to text 1) ->
  split (S f) text = Some (Raise ValueError).
Proof.
  intros Hmono Hne Hw.
  apply (fit_bound_first text Hmono Hne) in Hw.
  change (split (S f) text) with (body (split f) text).
  unfold split_line_body.
  destruct (Z.eqb_spec (len text) 0) as [E |];
    [apply len_zero in E; contradiction |].
  cbv zeta; destruct (Z.leb_spec (fit text) 0); [reflexivity | lia].
Qed.


(** A mark at the rightmost fit: the prefix with the mark is too wide, so the
    cut moves to the start of the letters before the mark, and stays where
    it was when those letters start the text. *)
Lemma body_at_mark (text : str) (c : char) (recur : str -> option (result (list str))) :
  0 < fit text < len text ->
  get text (fit text) = Some c -> in_MARKS c = true ->
  let p := walk_left text (Z.to_nat (fit text)) (fit text - 1) + 1 in
  let b := if p =? 0 then fit text else p in
  body recur text =
    cons_line (rstrip (slice_to text b)) (recur (lstrip (slice_from text b))).
Proof.
  intros Hfit Hc Hm; cbv zeta.
  unfold split_line_body.
  destruct (Z.eqb_spec (len text) 0); [lia |].
  cbv zeta.
  destruct (Z.leb_spec (fit text) 0); [lia |].
  destruct (Z.eqb_spec (fit text) (len text)); [lia |].
  rewrite Hc; unfold word_boundary.
  rewrite (letter_not_mark c Hm), Hc.
  unfold mark_boundary; rewrite Hm.
  pose proof (fit_bound_rightmost text ltac:(lia)) as Hw.
  destruct (Z.leb_spec (width (slice_to text (fit text + 1))) max_width); [lia |].
  cbv zeta.
  replace (fit text - 1 + 1) with (fit text) by lia.
  reflexivity.
Qed.

End SplitterFacts.

(** ** The hard-break pass *)

Section CutFacts.

Variable width : str -> Z.
Variable iterate : str -> list (str * str).
Variable max_width : Z.
Variable hyphenation : bool.

Local Abbreviation split := (_split_line width iterate max_width hyphenation).
Local Abbreviation loop := (cut_loop width iterate max_width hyphenation).

Lemma split_line_empty (fuel : nat) : split (S fuel) [] = Some (Ok []).
Proof. reflexivity. Qed.

Lemma cut_loop_blank (lines res : list str) :
  loop ([] :: lines) res = loop lines res.
Proof.
  change (loop ([] :: lines) res) with (loop lines (res ++ [])).
  rewrite app_nil_r; reflexivity.
Qed.

Lemma cut_loop_blank_inside (pre post res : list str) :
  loop (pre ++ [] :: post) res = loop (pre ++ post) res.
Proof.
  revert res; induction pre as [| line pre IH]; intros res.
  - apply cut_loop_blank.
  - cbn [app cut_loop].
    destruct (split (S (List.length line)) line) as [[splitted | e] |];
      [apply IH | reflexivity | reflexivity].
Qed.

Lemma cut_loop_all_blank (lines res : list str) :
  Forall (eq []) lines -> loop lines res = Some (Ok res).
Proof.
  induction 1 as [| line lines <- _ IH]; [reflexivity |].
  rewrite cut_loop_blank; exact IH.
Qed.

(** With a budget that is not positive and glyphs that take room, a line
    that is not empty has no fitting prefix. *)
Lemma split_line_no_room (line : str) (f : nat) :
  max_width <= 0 -> (forall s : str, s <> [] -> 0 < width s) ->
  line <> [] -> split (S f) line = Some (Raise ValueError).
Proof.
  intros Hw Hpos Hne.
  change (split (S f) line)
    with (split_line_body width iterate max_width hyphenation (split f) line).
  unfold split_line_body.
  destruct (Z.eqb_spec (len line) 0) as [E | Hlen];
    [apply len_zero in E; contradiction |].
  cbv zeta.
  destruct (Z.leb_spec (fit_bound width max_width line) 0) as [| Hfit];
    [reflexivity | exfalso].
  pose proof (fit_bound_fits width max_width line ltac:(lia)) as Hf.
  pose proof (fit_bound_range width max_width line) as Hr.
  assert (Hs : slice_to line (fit_bound width max_width line) <> []).
  { intros E; apply (f_equal len) in E.
    rewrite len_slice_to in E by lia; unfold len in E; simpl in E; lia. }
  specialize (Hpos _ Hs); lia.
Qed.

Lemma cut_loop_no_room (lines res : list str) :
  max_width <= 0 -> (forall s : str, s <> [] -> 0 < width s) ->
  Exists (fun line => line <> []) lines ->
  loop lines res = Some (Raise ValueError).
Proof.
  intros Hw Hpos; induction 1 as [line lines Hne | line lines _ IH].
  - cbn [cut_loop]; rewrite (split_line_no_room line _ Hw Hpos Hne); reflexivity.
  - destruct line as [| c line]; [rewrite cut_loop_blank; exact IH |].
    cbn [cut_loop].
    rewrite (split_line_no_room (c :: line) _ Hw Hpos) by discriminate.
    reflexivity.
Qed.


Lemma cut_loop_width (lines res out : list str) :
  monotone width -> (hyphenation = true -> subadditive width) ->
  Forall (fun line => width line <= max_width) res ->
  loop lines res = Some (Ok out) ->
  Forall (fun line => width line <= max_width) out.
Proof.
  intros Hmono Hsub; revert res.
  induction lines as [| line lines IH]; intros res Hres H.
  - injection H as <-; exact Hres.
  - cbn [cut_loop] in H.
    destruct (split (S (List.length line)) line) as [[splitted | e] |] eqn:E;
      try discriminate.
    apply (IH (res ++ splitted)); [| exact H].
    apply Forall_app; split; [exact Hres |].
    exact (split_line_width width iterate max_width hyphenation Hmono Hsub _ _ _ E).
Qed.

End CutFacts.

(** ** The sample collaborators meet their contracts *)

Lemma fixed10_monotone : monotone fixed10.
Proof.
  intros s k; unfold fixed10, len.
  rewrite length_firstn; lia.
Qed.

Lemma fixed10_subadditive : subadditive fixed10.
Proof. intros a b; unfold fixed10; rewrite len_app; lia. Qed.


Lemma sample_cuts_of_word : cuts_of_word sample_cuts.
Proof.
  intros w p s; unfold sample_cuts.
  destruct (list_eq_dec N.eq_dec w (lit "beautiful")) as [-> |].
  - intros [[= <- <-] | [[= <- <-] | []]]; split; (reflexivity || discriminate).
  - destruct (list_eq_dec N.eq_dec w (lit "hello")) as [-> |]; [| intros []].
    intros [[= <- <-] | []]; split; (reflexivity || discriminate).
Qed.





(** ** A letter at the bound *)

(** When no hyphenated cut is made, a letter at the bound sends the cut to
    the start of its word, and leaves it at the bound when the word starts
    the text. *)
Lemma body_at_letter
  (width : str -> Z) (iterate : str -> list (str * str))
  (max_width : Z) (hyphenation : bool)
  (text : str) (recur : str -> option (result (list str))) :
  (hyphenation = false \/
   forall w b, fst (_split_word width iterate w b) = []) ->
  let fit := fit_bound width max_width text in
  0 < fit < len text -> letter_at text fit = true ->
  let prev := walk_left text (Z.to_nat (fit + 1)) fit + 1 in
  let b := if prev =? 0 then fit else prev in
  0 <= prev <= fit /\
  (forall i, prev <= i <= fit -> letter_at text i = true) /\
  (0 < prev -> letter_at text (prev - 1) = false) /\
  split_line_body width iterate max_width hyphenation recur text =
    cons_line (rstrip (slice_to text b)) (recur (lstrip (slice_from text b))).
Proof.
  intros Hno fit Hfit Hat prev b.
  assert (Hr : 0 <= prev <= fit).
  { unfold prev.
    pose proof (walk_left_range text (Z.to_nat (fit + 1)) fit).
    replace (Z.to_nat (fit + 1)) with (S (Z.to_nat fit)) in * by lia.
    pose proof (walk_left_steps text (Z.to_nat fit) fit ltac:(lia) Hat); lia. }
  assert (Hrun : forall i, prev <= i <= fit -> letter_at text i = true).
  { intros i Hi.
    apply (walk_left_letters text (Z.to_nat (fit + 1)) fit); unfold prev in Hi; lia. }
  assert (Hstop : 0 < prev -> letter_at text (prev - 1) = false).
  { intros Hp.
    destruct (walk_left_stops text (Z.to_nat (fit + 1)) fit ltac:(lia)) as [Hneg | Hl].
    - unfold prev in Hp; lia.
    - unfold prev; replace (walk_left text (Z.to_nat (fit + 1)) fit + 1 - 1)
        with (walk_left text (Z.to_nat (fit + 1)) fit) by lia.
      exact Hl. }
  split; [exact Hr |]. split; [exact Hrun |]. split; [exact Hstop |].
  unfold split_line_body; fold fit.
  destruct (Z.eqb_spec (len text) 0); [lia |].
  cbv zeta; fold fit.
  destruct (Z.leb_spec fit 0); [lia |].
  destruct (Z.eqb_spec fit (len text)); [lia |].
  destruct (get_in_range text fit ltac:(lia)) as [c Hc]; rewrite Hc.
  assert (Hletter : in_ascii_letters c = true)
    by (unfold letter_at in Hat; rewrite Hc in Hat; exact Hat).
  unfold word_boundary; rewrite Hletter; cbv zeta; fold prev.
  set (next := walk_right text (Z.to_nat (len text - fit)) fit).
  assert (Hnext : fit < next <= len text).
  { unfold next.
    pose proof (walk_right_range text (Z.to_nat (len text - fit)) fit).
    replace (Z.to_nat (len text - fit))
      with (S (Z.to_nat (len text - fit - 1))) in * by lia.
    pose proof (walk_right_steps text (Z.to_nat (len text - fit - 1)) fit
                  ltac:(lia) Hat).
    lia. }
  assert (Hmoved :
    match get text prev with
    | Some c' =>
        cons_line
          (rstrip (slice_to text
             (if mark_boundary width max_width text prev c' =? 0
              then fit else mark_boundary width max_width text prev c')))
          (recur (lstrip (slice_from text
             (if mark_boundary width max_width text prev c' =? 0
              then fit else mark_boundary width max_width text prev c'))))
    | None => Some (Raise IndexError)
    end = cons_line (rstrip (slice_to text b)) (recur (lstrip (slice_from text b)))).
  { destruct (get_in_range text prev ltac:(lia)) as [c' Hc']; rewrite Hc'.
    assert (Hl' : in_ascii_letters c' = true).
    { specialize (Hrun prev ltac:(lia)).
      unfold letter_at in Hrun; rewrite Hc' in Hrun; exact Hrun. }
    unfold mark_boundary; rewrite (letter_is_no_mark c' Hl'); reflexivity. }
  destruct (Z.gtb_spec (len (slice text prev next)) 1) as [Hlong | Hshort].
  - destruct hyphenation; simpl negb; cbv iota; [| exact Hmoved].
    destruct Hno as [Hoff | Hno]; [discriminate |].
    specialize (Hno (slice text prev next) (max_width - width (slice_to text prev))).
    destruct (_split_word width iterate (slice text prev next)
                (max_width - width (slice_to text prev))) as [first second].
    simpl in Hno; rewrite Hno; exact Hmoved.
  - rewrite len_slice in Hshort by lia.
    assert (Eprev : prev = fit) by lia.
    rewrite Hc.
    unfold mark_boundary; rewrite (letter_is_no_mark c Hletter).
    unfold b; rewrite Eprev.
    destruct (Z.eqb_spec fit 0); [lia | reflexivity].
Qed.






(** * The claims *)










(** C4.  No text is dropped: with candidates that cut their word, the lines
    of an answer restore the text once the spaces trimmed at each break are
    put back and the hyphen of each hyphenated cut is taken out. *)
Theorem split_line_restores_text
  (width : str -> Z) (iterate : str -> list (str * str))
  (max_width : Z) (hyphenation : bool)
  (fuel : nat) (text : str) (lines : list str) :
  (hyphenation = true ->
   forall w p s, In (p, s) (iterate w) -> p ++ s = w) ->
  _split_line width iterate max_width hyphenation fuel text = Some (Ok lines) ->
  Restores lines text.
Proof. intros Hcuts H; eapply split_line_restores; eassumption. Qed.

Lemma split_line_restores_text_witness :
  Restores [lit "a beau-"; lit "tiful"] (lit "a beautiful") /\
  Restores [lit "hello"; lit "world"] (lit "hello world").
Proof.
  split.
  - apply (split_line_restores_text fixed10 sample_cuts 80 true 3
             (lit "a beautiful") [lit "a beau-"; lit "tiful"]).
    + intros _ w p s Hin; apply (sample_cuts_of_word w p s Hin).
    + reflexivity.
  - apply (split_line_restores_text fixed10 no_cuts 50 false 3
             (lit "hello world") [lit "hello"; lit "world"]).
    + intros H; discriminate H.
    + reflexivity.
Defined.



(** The third example of the spec: of the candidates "beau-" and "beauti-"
    only the first fits a budget of 50, and none fits a budget of 45. *)
Example split_word_beautiful :
  _split_word fixed10 sample_cuts (lit "beautiful") 50 = (lit "beau-", lit "tiful") /\
  _split_word fixed10 sample_cuts (lit "beautiful") 70 = (lit "beauti-", lit "ful") /\
  _split_word fixed10 sample_cuts (lit "beautiful") 45 = ([], lit "beautiful").
Proof. repeat split; vm_compute; reflexivity. Qed.

(** C6, as the code has it.  A mark at the bound: the bound is the
    rightmost fit, so the prefix with the mark is too wide; the cut moves to
    the start of the letters before the mark, which go to the next line
    with it, and stays at the bound, the mark beginning the next line, when
    those letters start the text.  In the scenario of "hi, you!" with a
    budget that "hi," fills, the comma stays on the first line. *)
Theorem mark_at_bound :
  (forall (width : str -> Z) (iterate : str -> list (str * str))
          (max_width : Z) (hyphenation : bool) (text : str) (c : char)
          (recur : str -> option (result (list str))),
      let fit := fit_bound width max_width text in
      0 < fit < len text -> get text fit = Some c -> in_MARKS c = true ->
      let p := walk_left text (Z.to_nat fit) (fit - 1) + 1 in
      let b := if p =? 0 then fit else p in
      max_width < width (slice_to text (fit + 1)) /\
      0 <= p <= fit /\
      (forall i, p <= i < fit -> letter_at text i = true) /\
      split_line_body width iterate max_width hyphenation recur text =
        cons_line (rstrip (slice_to text b)) (recur (lstrip (slice_from text b)))) /\
  (forall (iterate : str -> list (str * str)) (hyphenation : bool) (fuel : nat),
      _split_line fixed10 iterate 30 hyphenation (S (S (S fuel))) (lit "hi, you!")
        = Some (Ok [lit "hi,"; lit "you"; lit "!"])).
Proof.
  split.
  - intros width iterate max_width hyphenation text c recur fit Hfit Hc Hm p b.
    split; [apply fit_bound_rightmost; lia |].
    pose proof (walk_left_range text (Z.to_nat fit) (fit - 1)) as Hr.
    split; [unfold p; lia |].
    split.
    + intros i Hi.
      apply (walk_left_letters text (Z.to_nat fit) (fit - 1)); unfold p in Hi; lia.
    + apply (body_at_mark width iterate max_width hyphenation text c recur Hfit Hc Hm).
  - intros iterate hyphenation fuel; vm_compute; reflexivity.
Qed.

Lemma mark_at_bound_witness :
  split_line_body fixed10 no_cuts 30 false (fun _ => Some (Ok [])) (lit "you!")
    = Some (Ok [lit "you"]) /\
  split_line_body fixed10 no_cuts 50 false (fun _ => Some (Ok [])) (lit "a you, me")
    = Some (Ok [lit "a"]).
Proof.
  split.
  - apply (proj1 mark_at_bound fixed10 no_cuts 30 false (lit "you!") 33%N
             (fun _ => Some (Ok []))); [vm_compute; split; reflexivity | reflexivity ..].
  - apply (proj1 mark_at_bound fixed10 no_cuts 50 false (lit "a you, me") 44%N
             (fun _ => Some (Ok []))); [vm_compute; split; reflexivity | reflexivity ..].
Defined.

(** The counterexample to C6 as stated: lines that begin with a mark, in
    "ab,c" under a budget of two code points and in the scenario of the
    spec itself, where the exclamation mark is a line of its own. *)
Lemma line_begins_with_mark :
  _split_line fixed10 no_cuts 20 false 3 (lit "ab,c")
    = Some (Ok [lit "ab"; lit ",c"]) /\
  option_map in_MARKS (hd_error (lit ",c")) = Some true /\
  _split_line fixed10 no_cuts 30 false 4 (lit "hi, you!")
    = Some (Ok [lit "hi,"; lit "you"; lit "!"]) /\
  option_map in_MARKS (hd_error (lit "!")) = Some true.
Proof. repeat split; vm_compute; reflexivity. Qed.

(** C7, as the code has it.  In the font of 10 pixels a code point,
    "hello world" under a budget of 50 is split into "hello" and "world",
    the space gone at the break, whatever the dictionary and the
    hyphenation flag. *)
Theorem hello_world_budget_50
  (iterate : str -> list (str * str)) (hyphenation : bool) (fuel : nat) :
  _split_line fixed10 iterate 50 hyphenation (S (S fuel)) (lit "hello world")
    = Some (Ok [lit "hello"; lit "world"]).
Proof. vm_compute; reflexivity. Qed.

(** The counterexample to C7 as stated: under a budget of 45 a line holds
    four code points, "hello" measures 50, and no dictionary, flag or fuel
    gives the lines "hello" and "world". *)
Lemma hello_world_budget_45 :
  _split_line fixed10 no_cuts 45 false 5 (lit "hello world")
    = Some (Ok [lit "hell"; lit "o"; lit "worl"; lit "d"]) /\
  _split_line fixed10 sample_cuts 45 true 5 (lit "hello world")
    = Some (Ok [lit "hel-"; lit "lo"; lit "worl"; lit "d"]) /\
  (forall (iterate : str -> list (str * str)) (hyphenation : bool) (fuel : nat),
      _split_line fixed10 iterate 45 hyphenation fuel (lit "hello world")
        <> Some (Ok [lit "hello"; lit "world"])).
Proof.
  split; [vm_compute; reflexivity |].
  split; [vm_compute; reflexivity |].
  intros iterate hyphenation fuel H.
  pose proof (split_line_width fixed10 iterate 45 hyphenation
                fixed10_monotone (fun _ => fixed10_subadditive) _ _ _ H) as Hw.
  inversion Hw as [| line lines Hline _]; subst.
  vm_compute in Hline; apply Hline; reflexivity.
Qed.

(** C8, as the code has it.  Without hyphenation every line of an answer
    is a piece of the text, so a line holds no hyphen that the text does
    not hold.  A letter at the bound sends the cut to the start of its
    word, and the whole word goes to the next line, unless the word starts
    the text of the call: the cut then stays at the bound of the rightmost
    fit and the word is cut there. *)
Theorem no_hyphen_without_hyphenation :
  (forall (width : str -> Z) (iterate : str -> list (str * str)) (max_width : Z)
          (fuel : nat) (text : str) (lines : list str) (line : str),
      _split_line width iterate max_width false fuel text = Some (Ok lines) ->
      In line lines ->
      (exists a b, text = a ++ line ++ b) /\
      (In hyphen line -> In hyphen text)) /\
  (forall (width : str -> Z) (iterate : str -> list (str * str)) (max_width : Z)
          (text : str) (recur : str -> option (result (list str))),
      let fit := fit_bound width max_width text in
      0 < fit < len text -> letter_at text fit = true ->
      let prev := walk_left text (Z.to_nat (fit + 1)) fit + 1 in
      let b := if prev =? 0 then fit else prev in
      0 <= prev <= fit /\
      (forall i, prev <= i <= fit -> letter_at text i = true) /\
      (0 < prev -> letter_at text (prev - 1) = false) /\
      split_line_body width iterate max_width false recur text =
        cons_line (rstrip (slice_to text b)) (recur (lstrip (slice_from text b)))).
Proof.
  split.
  - intros width iterate max_width fuel text lines line H Hin.
    destruct (split_line_pieces width iterate max_width false eq_refl
                fuel text lines H line Hin) as (a & b & E).
    split; [exists a, b; exact E |].
    intros Hh; rewrite E; apply in_or_app; right; apply in_or_app; left; exact Hh.
  - intros width iterate max_width text recur.
    apply body_at_letter; left; reflexivity.
Qed.

Lemma no_hyphen_without_hyphenation_witness :
  ((exists a b, lit "well-known" = a ++ lit "known" ++ b) /\
   (In hyphen (lit "known") -> In hyphen (lit "well-known"))) /\
  split_line_body fixed10 no_cuts 40 false (fun _ => Some (Ok [])) (lit "go further")
    = Some (Ok [lit "go"]).
Proof.
  split.
  - apply (proj1 no_hyphen_without_hyphenation fixed10 sample_cuts 50 3%nat
             (lit "well-known") [lit "well-"; lit "known"] (lit "known")).
    + reflexivity.
    + right; left; reflexivity.
  - apply (proj2 no_hyphen_without_hyphenation fixed10 no_cuts 40
             (lit "go further") (fun _ => Some (Ok []))).
    + vm_compute; split; reflexivity.
    + reflexivity.
Defined.

(** The counterexample to C8 as stated: without hyphenation, under a budget
    of four code points, the word "further" is not moved whole to a line of
    its own; it starts the text left after "go" and is cut after "furt". *)
Lemma long_word_is_cut_without_hyphenation :
  forallb in_ascii_letters (lit "further") = true /\
  _split_line fixed10 no_cuts 40 false 4 (lit "go further")
    = Some (Ok [lit "go"; lit "furt"; lit "her"]).
Proof. split; vm_compute; reflexivity. Qed.

(** ** The layout object *)

Section LayoutFacts.

Variable Color : Type.
Variable truetype : string -> Z -> result (str -> Z).
Variable iterate : str -> list (str * str).
Variable render_text : str -> string -> Z -> option Color -> result RenderImage.

Local Abbreviation init := (Text_init Color truetype iterate render_text).

(** A text without lines that are not empty is laid out with no line. *)
Lemma Text_init_blank (text : str) (name : string) (sz w : Z)
      (al : Alignment) (col : option Color) (sp : Z) (hy : bool)
      (measure : str -> Z) :
  truetype name sz = Ok measure ->
  Forall (eq []) (splitlines text) ->
  init text name sz (Some w) al col sp hy =
    Some (Ok {| font := name; size := sz; alignment := al; color := col;
                spacing := sp; hyphenation := hy; pre_rendered := [] |}).
Proof.
  intros Hfont Hblank; unfold Text_init, cut.
  rewrite Hfont, (cut_loop_all_blank measure iterate w hy _ [] Hblank).
  reflexivity.
Qed.

(** A budget that is not positive fails in the splitter, at the first line
    that is not empty. *)
Lemma Text_init_no_room (text : str) (name : string) (sz w : Z)
      (al : Alignment) (col : option Color) (sp : Z) (hy : bool)
      (measure : str -> Z) :
  w <= 0 -> truetype name sz = Ok measure ->
  (forall s : str, s <> [] -> 0 < measure s) ->
  Exists (fun line => line <> []) (splitlines text) ->
  init text name sz (Some w) al col sp hy = Some (Raise ValueError).
Proof.
  intros Hw Hfont Hpos Hex; unfold Text_init, cut.
  rewrite Hfont, (cut_loop_no_room measure iterate w hy _ [] Hw Hpos Hex).
  reflexivity.
Qed.

End LayoutFacts.

(** C9, as the code has it.  [Text.__init__] checks nothing itself.  A
    budget that is not positive is refused by the line splitter, with its
    ValueError, when the text has a physical line that is not empty (and
    glyphs take room); a text without such a line is accepted with no line.
    The size only reaches the font loader and the renderer: the loader's
    exception is passed on, and without a budget the empty text is accepted
    at any size. *)
Theorem Text_init_checks_nothing :
  (forall (Color : Type) (truetype : string -> Z -> result (str -> Z))
          (iterate : str -> list (str * str))
          (render_text : str -> string -> Z -> option Color -> result RenderImage)
          (text : str) (name : string) (sz w : Z) (al : Alignment)
          (col : option Color) (sp : Z) (hy : bool) (measure : str -> Z),
      w <= 0 -> truetype name sz = Ok measure ->
      (forall s : str, s <> [] -> 0 < measure s) ->
      (Exists (fun line => line <> []) (splitlines text) ->
       Text_init Color truetype iterate render_text text name sz (Some w) al col sp hy
         = Some (Raise ValueError)) /\
      (Forall (eq []) (splitlines text) ->
       Text_init Color truetype iterate render_text text name sz (Some w) al col sp hy
         = Some (Ok {| font := name; size := sz; alignment := al; color := col;
                       spacing := sp; hyphenation := hy; pre_rendered := [] |}))) /\
  (forall (Color : Type) (truetype : string -> Z -> result (str -> Z))
          (iterate : str -> list (str * str))
          (render_text : str -> string -> Z -> option Color -> result RenderImage)
          (text : str) (name : string) (sz w : Z) (al : Alignment)
          (col : option Color) (sp : Z) (hy : bool) (e : exn),
      truetype name sz = Raise e ->
      Text_init Color truetype iterate render_text text name sz (Some w) al col sp hy
        = Some (Raise e)) /\
  (forall (Color : Type) (truetype : string -> Z -> result (str -> Z))
          (iterate : str -> list (str * str))
          (render_text : str -> string -> Z -> option Color -> result RenderImage)
          (name : string) (sz : Z) (al : Alignment)
          (col : option Color) (sp : Z) (hy : bool),
      Text_init Color truetype iterate render_text [] name sz None al col sp hy
        = Some (Ok {| font := name; size := sz; alignment := al; color := col;
                      spacing := sp; hyphenation := hy; pre_rendered := [] |})).
Proof.
  repeat split.
  - eapply Text_init_no_room; eassumption.
  - eapply Text_init_blank; eassumption.
  - intros Color truetype iterate render_text text name sz w al col sp hy e Hfont.
    unfold Text_init, cut; rewrite Hfont; reflexivity.
Qed.

Lemma Text_init_checks_nothing_witness :
  Text_init unit strict_truetype no_cuts sample_render
    (lit "ab") "sans" 12 (Some 0) START None 0 true = Some (Raise ValueError) /\
  Text_init unit strict_truetype no_cuts sample_render
    [10; 10]%N "sans" 12 (Some (-5)) START None 0 true
    = Some (Ok {| font := "sans"; size := 12; alignment := START; color := None;
                  spacing := 0; hyphenation := true; pre_rendered := [] |}).
Proof.
  assert (Hpos : forall s : str, s <> [] -> 0 < fixed10 s).
  { intros [| c s] Hs; [contradiction |].
    unfold fixed10, len; simpl List.length; lia. }
  split.
  - apply (proj1 (proj1 Text_init_checks_nothing unit strict_truetype no_cuts
                    sample_render (lit "ab") "sans"%string 12 0 START None 0 true
                    fixed10 ltac:(lia) eq_refl Hpos)).
    left; discriminate.
  - apply (proj2 (proj1 Text_init_checks_nothing unit strict_truetype no_cuts
                    sample_render [10; 10]%N "sans"%string 12 (-5) START None 0 true
                    fixed10 ltac:(lia) eq_refl Hpos)).
    repeat constructor.
Defined.

(** The counterexample to C9 as stated: with a loader and a renderer that
    refuse sizes that are not positive, the constructor accepts a budget
    of 0 and a budget below 0 on texts without a line that is not empty,
    and sizes of 0 and below on the empty text without a budget. *)
Lemma invalid_configuration_accepted :
  Text_init unit strict_truetype no_cuts sample_render
    [] "sans" 12 (Some 0) START None 0 true
    = Some (Ok {| font := "sans"; size := 12; alignment := START; color := None;
                  spacing := 0; hyphenation := true; pre_rendered := [] |}) /\
  Text_init unit strict_truetype no_cuts sample_render
    [10; 10]%N "sans" 12 (Some (-5)) START None 0 true
    = Some (Ok {| font := "sans"; size := 12; alignment := START; color := None;
                  spacing := 0; hyphenation := true; pre_rendered := [] |}) /\
  Text_init unit strict_truetype no_cuts sample_render
    [] "sans" 0 None START None 0 true
    = Some (Ok {| font := "sans"; size := 0; alignment := START; color := None;
                  spacing := 0; hyphenation := true; pre_rendered := [] |}) /\
  Text_init unit strict_truetype no_cuts sample_render
    [] "sans" (-3) None START None 0 true
    = Some (Ok {| font := "sans"; size := -3; alignment := START; color := None;
                  spacing := 0; hyphenation := true; pre_rendered := [] |}).
Proof. repeat split; vm_compute; reflexivity. Qed.

(** C10.  Under a width budget the empty physical line is split into no
    line, so a blank line between hard breaks adds nothing to the lines of
    [Text.cut]; a text without a physical line that is not empty, such as
    the empty text, is laid out with no pre-rendered line, and its
    [content_width] raises the ValueError of a maximum over nothing. *)
Theorem blank_lines_give_no_line :
  (forall (width : str -> Z) (iterate : str -> list (str * str))
          (max_width : Z) (hyphenation : bool) (fuel : nat),
      _split_line width iterate max_width hyphenation (S fuel) [] = Some (Ok [])) /\
  (forall (width : str -> Z) (iterate : str -> list (str * str))
          (max_width : Z) (hyphenation : bool) (pre post res : list str),
      cut_loop width iterate max_width hyphenation (pre ++ [] :: post) res
        = cut_loop width iterate max_width hyphenation (pre ++ post) res) /\
  splitlines [] = [] /\
  (forall (Color : Type) (truetype : string -> Z -> result (str -> Z))
          (iterate : str -> list (str * str))
          (render_text : str -> string -> Z -> option Color -> result RenderImage)
          (text : str) (name : string) (sz w : Z) (al : Alignment)
          (col : option Color) (sp : Z) (hy : bool) (measure : str -> Z),
      truetype name sz = Ok measure ->
      Forall (eq []) (splitlines text) ->
      exists self : Text Color,
        Text_init Color truetype iterate render_text text name sz (Some w) al col sp hy
          = Some (Ok self) /\
        pre_rendered self = [] /\
        content_width Color self = Raise ValueError).
Proof.
  repeat split.
  - intros width iterate max_width hyphenation pre post res.
    apply cut_loop_blank_inside.
  - intros Color truetype iterate render_text text name sz w al col sp hy measure
           Hfont Hblank.
    eexists; split; [apply (Text_init_blank _ _ _ _ _ _ _ _ _ _ _ _ measure Hfont Hblank) |].
    split; reflexivity.
Qed.

Lemma blank_lines_give_no_line_witness :
  exists self : Text unit,
    Text_init unit strict_truetype no_cuts sample_render
      [10; 13; 10]%N "sans" 12 (Some 100) START None 0 true = Some (Ok self) /\
    pre_rendered self = [] /\
    content_width unit self = Raise ValueError.
Proof.
  apply (proj2 (proj2 (proj2 blank_lines_give_no_line)) unit strict_truetype
           no_cuts sample_render [10; 13; 10]%N "sans"%string 12 100 START None 0
           true fixed10 eq_refl).
  repeat constructor.
Defined.

(** * Further properties of the code *)

(** ** The bound of a call *)

Lemma prefix_width_le (width : str -> Z) (text : str) (j k : Z) :
  monotone width -> 0 <= j <= k -> k <= len text ->
  width (slice_to text j) <= width (slice_to text k).
Proof.
  intros Hmono Hj Hk.
  assert (E : slice_to text j = firstn (Z.to_nat j) (slice_to text k)).
  { rewrite !slice_to_firstn by lia.
    rewrite firstn_firstn, Nat.min_l by lia; reflexivity. }
  rewrite E; apply Hmono.
Qed.

(** X1.  Lines 60-67 find the longest prefix that fits: under a measure
    monotone on prefixes, a prefix of the text is within the budget exactly
    when it is no longer than the bound. *)
Theorem fit_bound_longest_prefix
  (width : str -> Z) (max_width : Z) (text : str) (k : Z) :
  monotone width -> 0 <= k <= len text ->
  (width (slice_to text k) <= max_width <-> k <= fit_bound width max_width text).
Proof.
  intros Hmono Hk.
  pose proof (fit_bound_range width max_width text) as Hr.
  split; intros H.
  - destruct (Z.le_gt_cases k (fit_bound width max_width text)) as [| Hgt];
      [assumption | exfalso].
    pose proof (fit_bound_rightmost width max_width text ltac:(lia)) as Hw.
    pose proof (prefix_width_le width text
                  (fit_bound width max_width text + 1) k Hmono ltac:(lia) ltac:(lia)).
    lia.
  - pose proof (fit_bound_fits width max_width text ltac:(lia)) as Hf.
    pose proof (prefix_width_le width text k
                  (fit_bound width max_width text) Hmono ltac:(lia) ltac:(lia)).
    lia.
Qed.

Lemma fit_bound_longest_prefix_witness :
  fixed10 (slice_to (lit "hello world") 4) <= 45 <->
  4 <= fit_bound fixed10 45 (lit "hello world").
Proof.
  apply (fit_bound_longest_prefix fixed10 45 (lit "hello world") 4
           fixed10_monotone).
  vm_compute; split; discriminate.
Defined.

Lemma fit_bound_whole (width : str -> Z) (max_width : Z) (text : str) :
  monotone width -> width text <= max_width ->
  fit_bound width max_width text = len text.
Proof.
  intros Hmono Hw.
  pose proof (fit_bound_range width max_width text) as Hr.
  pose proof (len_nonneg text) as Hn.
  assert (len text <= fit_bound width max_width text); [| lia].
  apply (fit_bound_longest_prefix width max_width text (len text) Hmono);
    [lia | rewrite slice_to_all; exact Hw].
Qed.

Lemma split_line_whole
  (width : str -> Z) (iterate : str -> list (str * str))
  (max_width : Z) (hyphenation : bool) (text : str) (fuel : nat) :
  monotone width -> text <> [] -> width text <= max_width ->
  _split_line width iterate max_width hyphenation (S fuel) text = Some (Ok [text]).
Proof.
  intros Hmono Hne Hw.
  change (_split_line width iterate max_width hyphenation (S fuel) text)
    with (split_line_body width iterate max_width hyphenation
            (_split_line width iterate max_width hyphenation fuel) text).
  unfold split_line_body.
  assert (Hlen : 0 < len text).
  { pose proof (len_nonneg text).
    destruct (Z.eq_dec (len text) 0) as [E |]; [| lia].
    apply len_zero in E; contradiction. }
  destruct (Z.eqb_spec (len text) 0); [lia |].
  cbv zeta; rewrite (fit_bound_whole width max_width text Hmono Hw).
  destruct (Z.leb_spec (len text) 0); [lia |].
  rewrite Z.eqb_refl; reflexivity.
Qed.

(** X2.  A text that fits the budget is its own single line, with its
    spaces left in place: nothing is trimmed when nothing is broken. *)
Theorem split_line_fitting_text
  (width : str -> Z) (iterate : str -> list (str * str))
  (max_width : Z) (hyphenation : bool) (text : str) (fuel : nat) :
  monotone width -> text <> [] -> width text <= max_width ->
  _split_line width iterate max_width hyphenation (S fuel) text = Some (Ok [text]).
Proof. apply split_line_whole. Qed.

Lemma split_line_fitting_text_witness :
  _split_line fixed10 sample_cuts 100 true 1 (lit " hi you ")
    = Some (Ok [lit " hi you "]).
Proof.
  apply (split_line_fitting_text fixed10 sample_cuts 100 true (lit " hi you ") 0
           fixed10_monotone).
  - discriminate.
  - vm_compute; discriminate.
Defined.

(** X3.  Splitting is idempotent on its lines: a line of an answer that is
    not empty, split again under the same budget, is returned as it is. *)
Theorem split_line_idempotent
  (width : str -> Z) (iterate : str -> list (str * str))
  (max_width : Z) (hyphenation : bool)
  (fuel : nat) (text : str) (lines : list str) (line : str) (fuel' : nat) :
  monotone width -> (hyphenation = true -> subadditive width) ->
  _split_line width iterate max_width hyphenation fuel text = Some (Ok lines) ->
  In line lines -> line <> [] ->
  _split_line width iterate max_width hyphenation (S fuel') line = Some (Ok [line]).
Proof.
  intros Hmono Hsub H Hin Hne.
  pose proof (split_line_width width iterate max_width hyphenation Hmono Hsub
                _ _ _ H) as Hw.
  rewrite Forall_forall in Hw.
  apply split_line_whole; auto.
Qed.

Lemma split_line_idempotent_witness :
  _split_line fixed10 sample_cuts 80 true 1 (lit "a beau-")
    = Some (Ok [lit "a beau-"]).
Proof.
  apply (split_line_idempotent fixed10 sample_cuts 80 true 3 (lit "a beautiful")
           [lit "a beau-"; lit "tiful"] (lit "a beau-") 0
           fixed10_monotone (fun _ => fixed10_subadditive)).
  - reflexivity.
  - left; reflexivity.
  - discriminate.
Defined.

(** X4.  Whatever the measure, the word splitter answers the empty prefix
    with the whole word, or a candidate of the dictionary with its hyphen
    whose hyphenated prefix is within the budget; with no candidate it
    answers the whole word. *)
Theorem split_word_answer_fits
  (width : str -> Z) (iterate : str -> list (str * str))
  (word : str) (budget : Z) :
  (_split_word width iterate word budget = ([], word) \/
   exists p s,
     In (p, s) (iterate word) /\ width (p ++ [hyphen]) <= budget /\
     _split_word width iterate word budget = (p ++ [hyphen], s)) /\
  (iterate word = [] -> _split_word width iterate word budget = ([], word)).
Proof.
  split; [apply split_word_cases |].
  intros E; unfold _split_word; rewrite E; reflexivity.
Qed.

(** ** Spaces at the breaks *)

Lemma lstrip_start (s : str) : lstrip s = [] \/ starts_without_space (lstrip s).
Proof.
  induction s as [| c s IH]; simpl; [left; reflexivity |].
  destruct (N.eqb_spec c space) as [| Hne]; [exact IH |].
  right; exists c, s; split; [reflexivity | exact Hne].
Qed.

Lemma lstrip_idempotent (s : str) : lstrip (lstrip s) = lstrip s.
Proof.
  induction s as [| c s IH]; simpl; [reflexivity |].
  destruct (N.eqb_spec c space) as [| Hne]; [exact IH |].
  simpl; destruct (N.eqb_spec c space); [contradiction | reflexivity].
Qed.

Lemma rstrip_idempotent (s : str) : rstrip (rstrip s) = rstrip s.
Proof.
  unfold rstrip; rewrite rev_involutive, lstrip_idempotent; reflexivity.
Qed.

(** The trimmed prefix of a text that begins without a space begins with
    the same code point. *)
Lemma rstrip_prefix_start (text : str) (b : Z) :
  starts_without_space text -> 1 <= b <= len text ->
  starts_without_space (rstrip (slice_to text b)).
Proof.
  intros (c & rest & -> & Hc) Hb.
  rewrite slice_to_firstn by lia.
  replace (Z.to_nat b) with (S (Z.to_nat (b - 1))) by lia; simpl firstn.
  set (u := firstn (Z.to_nat (b - 1)) rest).
  destruct (rstrip_spaces (c :: u)) as [k Hk].
  destruct (rstrip (c :: u)) as [| c' r] eqn:E.
  - destruct k; simpl in Hk; [discriminate |].
    injection Hk as Hc' _; contradiction.
  - simpl in Hk; injection Hk as <- _.
    exists c, r; split; [reflexivity | exact Hc].
Qed.

Lemma split_line_starts
  (width : str -> Z) (iterate : str -> list (str * str)) (max_width : Z) :
  forall (f : nat) (text : str) (lines : list str),
    _split_line width iterate max_width false f text = Some (Ok lines) ->
    text = [] \/ starts_without_space text ->
    Forall starts_without_space lines.
Proof.
  induction f as [| f IH]; intros text lines H Hstart; [discriminate |].
  change (_split_line width iterate max_width false (S f) text)
    with (split_line_body width iterate max_width false
            (_split_line width iterate max_width false f) text) in H.
  destruct (body_step width iterate max_width false text) as (d & Hd & E).
  rewrite E in H; clear E.
  destruct Hd as [| | Hne Hall | prev next p s Hh | b Hfit Hb]; unfold run in H.
  - injection H as <-; constructor.
  - discriminate.
  - injection H as <-; destruct Hstart as [| Hs]; [contradiction |].
    constructor; [exact Hs | constructor].
  - discriminate.
  - destruct (_split_line width iterate max_width false f
                (lstrip (slice_from text b))) as [[ls | e] |] eqn:Er;
      try discriminate; injection H as <-.
    destruct Hstart as [-> | Hs].
    { unfold len in Hfit; simpl in Hfit; lia. }
    constructor.
    + apply rstrip_prefix_start; [exact Hs | lia].
    + apply (IH _ _ Er), lstrip_start.
Qed.

Lemma split_line_trimmed
  (width : str -> Z) (iterate : str -> list (str * str)) (max_width : Z) :
  forall (f : nat) (text : str) (lines : list str),
    _split_line width iterate max_width false f text = Some (Ok lines) ->
    Forall (fun line => rstrip line = line) (removelast lines).
Proof.
  induction f as [| f IH]; intros text lines H; [discriminate |].
  change (_split_line width iterate max_width false (S f) text)
    with (split_line_body width iterate max_width false
            (_split_line width iterate max_width false f) text) in H.
  destruct (body_step width iterate max_width false text) as (d & Hd & E).
  rewrite E in H; clear E.
  destruct Hd as [| | Hne Hall | prev next p s Hh | b Hfit Hb]; unfold run in H.
  - injection H as <-; constructor.
  - discriminate.
  - injection H as <-; constructor.
  - discriminate.
  - destruct (_split_line width iterate max_width false f
                (lstrip (slice_from text b))) as [[ls | e] |] eqn:Er;
      try discriminate; injection H as <-.
    destruct ls as [| l ls]; [constructor |].
    change (removelast (rstrip (slice_to text b) :: l :: ls))
      with (rstrip (slice_to text b) :: removelast (l :: ls)).
    constructor; [apply rstrip_idempotent | exact (IH _ _ Er)].
Qed.

(** X5.  Without hyphenation the break leaves no space at its edges: every
    line after the first is not empty and begins with a code point other
    than the space, and every line before the last ends without a space. *)
Theorem split_line_break_spaces
  (width : str -> Z) (iterate : str -> list (str * str)) (max_width : Z)
  (fuel : nat) (text : str) (lines : list str) :
  _split_line width iterate max_width false fuel text = Some (Ok lines) ->
  Forall starts_without_space (tl lines) /\
  Forall (fun line => rstrip line = line) (removelast lines).
Proof.
  intros H; split; [| exact (split_line_trimmed width iterate max_width _ _ _ H)].
  destruct fuel as [| f]; [discriminate |].
  change (_split_line width iterate max_width false (S f) text)
    with (split_line_body width iterate max_width false
            (_split_line width iterate max_width false f) text) in H.
  destruct (body_step width iterate max_width false text) as (d & Hd & E).
  rewrite E in H; clear E.
  destruct Hd as [| | Hne Hall | prev next p s Hh | b Hfit Hb]; unfold run in H.
  - injection H as <-; constructor.
  - discriminate.
  - injection H as <-; constructor.
  - discriminate.
  - destruct (_split_line width iterate max_width false f
                (lstrip (slice_from text b))) as [[ls | e] |] eqn:Er;
      try discriminate; injection H as <-.
    exact (split_line_starts width iterate max_width _ _ _ Er (lstrip_start _)).
Qed.

Lemma split_line_break_spaces_witness :
  Forall starts_without_space (tl [lit " one"; lit "two"; lit "thre"; lit "e "]) /\
  Forall (fun line => rstrip line = line)
         (removelast [lit " one"; lit "two"; lit "thre"; lit "e "]).
Proof.
  apply (split_line_break_spaces fixed10 no_cuts 40 5 (lit " one   two  three ")).
  vm_compute; reflexivity.
Defined.

(** ** Words at the breaks *)

(** X6.  Without hyphenation a break keeps words whole: the cut of a line
    falls between two letters only when every code point of the line up to
    the cut is a letter, that is, when the word begins the text and is too
    long for a line. *)
Theorem split_line_keeps_words
  (width : str -> Z) (iterate : str -> list (str * str)) (max_width : Z)
  (text : str) (recur : str -> option (result (list str))) :
  0 < fit_bound width max_width text < len text ->
  exists b,
    1 <= b <= fit_bound width max_width text /\
    split_line_body width iterate max_width false recur text =
      cons_line (rstrip (slice_to text b)) (recur (lstrip (slice_from text b))) /\
    (letter_at text (b - 1) = true -> letter_at text b = true ->
     forall i, 0 <= i <= b -> letter_at text i = true).
Proof.
  intros Hfit; unfold split_line_body.
  set (fit := fit_bound width max_width text) in *.
  destruct (Z.eqb_spec (len text) 0); [lia |].
  cbv zeta; fold fit.
  destruct (Z.leb_spec fit 0); [lia |].
  destruct (Z.eqb_spec fit (len text)); [lia |].
  destruct (get_in_range text fit ltac:(lia)) as [c Hc]; rewrite Hc.
  assert (Hat : letter_at text fit = in_ascii_letters c)
    by (unfold letter_at; rewrite Hc; reflexivity).
  unfold word_boundary.
  destruct (in_ascii_letters c) eqn:Hletter.
  - cbv zeta.
    set (r := walk_left text (Z.to_nat (fit + 1)) fit).
    set (next := walk_right text (Z.to_nat (len text - fit)) fit).
    assert (Hr : -1 <= r <= fit - 1).
    { unfold r.
      pose proof (walk_left_range text (Z.to_nat (fit + 1)) fit).
      replace (Z.to_nat (fit + 1)) with (S (Z.to_nat fit)) in * by lia.
      pose proof (walk_left_steps text (Z.to_nat fit) fit ltac:(lia) Hat); lia. }
    assert (Hnext : fit < next <= len text).
    { unfold next.
      pose proof (walk_right_range text (Z.to_nat (len text - fit)) fit).
      replace (Z.to_nat (len text - fit))
        with (S (Z.to_nat (len text - fit - 1))) in * by lia.
      pose proof (walk_right_steps text (Z.to_nat (len text - fit - 1)) fit
                    ltac:(lia) Hat).
      lia. }
    assert (Hstop : r < 0 \/ letter_at text r = false)
      by (apply walk_left_stops; lia).
    assert (Hrun : forall i, r < i <= fit -> letter_at text i = true)
      by (intros i Hi; apply (walk_left_letters text (Z.to_nat (fit + 1)) fit); exact Hi).
    destruct (Z.gtb_spec (len (slice text (r + 1) next)) 1) as [Hlong | Hshort];
      simpl negb; cbv iota.
    + destruct (get_in_range text (r + 1) ltac:(lia)) as [c' Hc']; rewrite Hc'.
      assert (Hl' : in_ascii_letters c' = true).
      { specialize (Hrun (r + 1) ltac:(lia)).
        unfold letter_at in Hrun; rewrite Hc' in Hrun; exact Hrun. }
      unfold mark_boundary; rewrite (letter_is_no_mark c' Hl').
      destruct (Z.eqb_spec (r + 1) 0) as [Hz | Hnz].
      * exists fit; split; [lia |]; split; [reflexivity |].
        intros _ _ i Hi; apply Hrun; lia.
      * exists (r + 1); split; [lia |]; split; [reflexivity |].
        replace (r + 1 - 1) with r by lia.
        destruct Hstop as [| Hstop]; [lia |].
        intros Hl; congruence.
    + rewrite Hc.
      unfold mark_boundary; rewrite (letter_is_no_mark c Hletter).
      destruct (Z.eqb_spec fit 0); [lia |].
      exists fit; split; [lia |]; split; [reflexivity |].
      rewrite len_slice in Hshort by lia.
      replace (fit - 1) with r by lia.
      destruct Hstop as [| Hstop]; [lia |].
      intros Hl; congruence.
  - rewrite Hc; unfold mark_boundary.
    destruct (in_MARKS c) eqn:Hm.
    + pose proof (fit_bound_rightmost width max_width text ltac:(lia)) as Hw.
      fold fit in Hw.
      destruct (Z.leb_spec (width (slice_to text (fit + 1))) max_width); [lia |].
      cbv zeta.
      set (r := walk_left text (Z.to_nat (fit - 1 + 1)) (fit - 1)).
      pose proof (walk_left_range text (Z.to_nat (fit - 1 + 1)) (fit - 1)) as Hr.
      fold r in Hr.
      assert (Hstop : r < 0 \/ letter_at text r = false)
        by (apply walk_left_stops; lia).
      destruct (Z.eqb_spec (r + 1) 0) as [Hz | Hnz].
      * exists fit; split; [lia |]; split; [reflexivity |].
        intros _ Hl; congruence.
      * exists (r + 1); split; [lia |]; split; [reflexivity |].
        replace (r + 1 - 1) with r by lia.
        destruct Hstop as [| Hstop]; [lia |].
        intros Hl; congruence.
    + destruct (Z.eqb_spec fit 0); [lia |].
      exists fit; split; [lia |]; split; [reflexivity |].
      intros _ Hl; congruence.
Qed.

Lemma split_line_keeps_words_witness :
  exists b,
    1 <= b <= fit_bound fixed10 70 (lit "one three") /\
    split_line_body fixed10 no_cuts 70 false (fun _ => Some (Ok [])) (lit "one three")
      = cons_line (rstrip (slice_to (lit "one three") b)) (Some (Ok [])) /\
    (letter_at (lit "one three") (b - 1) = true ->
     letter_at (lit "one three") b = true ->
     forall i, 0 <= i <= b -> letter_at (lit "one three") i = true).
Proof.
  apply (split_line_keeps_words fixed10 no_cuts 70 (lit "one three")
           (fun _ => Some (Ok []))).
  vm_compute; split; reflexivity.
Defined.

(** ** The layout block *)

Lemma render_lines_each (Color : Type)
      (render_text : str -> string -> Z -> option Color -> result RenderImage)
      (name : string) (sz : Z) (col : option Color) :
  forall (lines : list str) (ims : list RenderImage),
    render_lines Color render_text lines name sz col = Ok ims ->
    Forall2 (fun line im => render_text line name sz col = Ok im) lines ims.
Proof.
  induction lines as [| line lines IH]; intros ims H; simpl in H.
  - injection H as <-; constructor.
  - destruct (render_text line name sz col) as [im | e] eqn:E; [| discriminate].
    destruct (render_lines Color render_text lines name sz col) as [ims' | e];
      [| discriminate].
    injection H as <-; constructor; [exact E | apply IH; reflexivity].
Qed.

Lemma fold_left_max_le (l : list Z) (x bound : Z) :
  x <= bound -> Forall (fun y => y <= bound) l -> fold_left Z.max l x <= bound.
Proof.
  revert x; induction l as [| y l IH]; intros x Hx Hl; simpl; [exact Hx |].
  inversion Hl; subst; apply IH; [lia | assumption].
Qed.

Lemma Text_init_lines (Color : Type)
      (truetype : string -> Z -> result (str -> Z))
      (iterate : str -> list (str * str))
      (render_text : str -> string -> Z -> option Color -> result RenderImage)
      (text : str) (name : string) (sz : Z) (max_width : option Z)
      (al : Alignment) (col : option Color) (sp : Z) (hy : bool)
      (self : Text Color) :
  Text_init Color truetype iterate render_text text name sz max_width al col sp hy
    = Some (Ok self) ->
  exists lines,
    cut truetype iterate name sz hy text max_width = Some (Ok lines) /\
    Forall2 (fun line im => render_text line name sz col = Ok im)
            lines (pre_rendered self) /\
    spacing Color self = sp.
Proof.
  unfold Text_init; intros H.
  destruct (cut truetype iterate name sz hy text max_width) as [[lines | e] |];
    try discriminate.
  destruct (render_lines Color render_text lines name sz col) as [ims | e] eqn:E;
    [| discriminate].
  injection H as <-; exists lines; repeat split.
  apply render_lines_each; exact E.
Qed.

(** X7.  The block is within the budget: when the renderer draws a line as
    wide as the font measures it, every pre-rendered line of a layout built
    under a width budget is at most [max_width] wide, and so is its
    [content_width]. *)
Theorem content_width_within_budget
  (Color : Type) (truetype : string -> Z -> result (str -> Z))
  (iterate : str -> list (str * str))
  (render_text : str -> string -> Z -> option Color -> result RenderImage)
  (text : str) (name : string) (sz w : Z) (al : Alignment)
  (col : option Color) (sp : Z) (hy : bool)
  (measure : str -> Z) (self : Text Color) :
  monotone measure -> (hy = true -> subadditive measure) ->
  truetype name sz = Ok measure ->
  (forall line im, render_text line name sz col = Ok im ->
                   im_width im = measure line) ->
  Text_init Color truetype iterate render_text text name sz (Some w) al col sp hy
    = Some (Ok self) ->
  Forall (fun im => im_width im <= w) (pre_rendered self) /\
  (forall cw, content_width Color self = Ok cw -> cw <= w).
Proof.
  intros Hmono Hsub Hfont Hrender H.
  destruct (Text_init_lines _ _ _ _ _ _ _ _ _ _ _ _ _ H) as (lines & Hcut & Hims & _).
  unfold cut in Hcut; rewrite Hfont in Hcut.
  pose proof (cut_loop_width measure iterate w hy (splitlines text) [] lines
                Hmono Hsub (Forall_nil _) Hcut) as Hfit.
  assert (Hall : Forall (fun im => im_width im <= w) (pre_rendered self)).
  { clear - Hims Hfit Hrender.
    induction Hims as [| line im lines ims Him _ IH]; [constructor |].
    inversion Hfit; subst.
    constructor; [rewrite (Hrender _ _ Him); assumption | apply IH; assumption]. }
  split; [exact Hall |].
  intros cw Hcw; unfold content_width, py_max in Hcw.
  destruct (pre_rendered self) as [| im ims]; simpl in Hcw; [discriminate |].
  injection Hcw as <-.
  inversion Hall; subst.
  apply fold_left_max_le; [assumption |].
  apply Forall_map; assumption.
Qed.

Lemma content_width_within_budget_witness :
  Forall (fun im => im_width im <= 80)
         [{| im_width := 70; im_height := 12 |};
          {| im_width := 50; im_height := 12 |}].
Proof.
  apply (proj1 (content_width_within_budget unit strict_truetype sample_cuts
                  sample_render (lit "a beautiful") "sans"%string 12 80 START None 2
                  true fixed10
                  {| font := "sans"; size := 12; alignment := START; color := None;
                     spacing := 2; hyphenation := true;
                     pre_rendered := [{| im_width := 70; im_height := 12 |};
                                      {| im_width := 50; im_height := 12 |}] |}
                  fixed10_monotone (fun _ => fixed10_subadditive) eq_refl
                  (fun line im H =>
                     match H in (_ = r) return
                           match r with
                           | Ok im' => im_width im' = fixed10 line
                           | Raise _ => True
                           end
                     with eq_refl => eq_refl end)
                  eq_refl)).
Defined.

(** The physical lines hold no more code points than the text, and are no
    more than its code points. *)
Lemma splitlines_from_bounds :
  forall (n : nat) (s cur : str),
    (List.length s <= n)%nat ->
    (List.length (List.concat (splitlines_from cur s))
       <= List.length cur + List.length s)%nat /\
    (List.length (splitlines_from cur s)
       <= List.length s + Nat.min 1 (List.length cur))%nat.
Proof.
  induction n as [| n IH]; intros s cur Hn.
  - destruct s; [| simpl in Hn; lia].
    destruct cur; simpl; [lia |].
    rewrite app_nil_r, length_app, length_rev; simpl; lia.
  - destruct s as [| c rest].
    + destruct cur; simpl; [lia |].
      rewrite app_nil_r, length_app, length_rev; simpl; lia.
    + simpl in Hn; simpl splitlines_from.
      destruct (is_linebreak c).
      * assert (Htail :
          forall tail : list str,
            (List.length (List.concat tail) <= List.length rest)%nat ->
            (List.length tail <= List.length rest)%nat ->
            (List.length (List.concat (rev cur :: tail))
               <= List.length cur + List.length (c :: rest))%nat /\
            (List.length (rev cur :: tail)
               <= List.length (c :: rest) + Nat.min 1 (List.length cur))%nat).
        { intros tail H1 H2.
          change (List.concat (rev cur :: tail)) with (rev cur ++ List.concat tail).
          rewrite length_app, length_rev; simpl List.length.
          unfold str, char in *; lia. }
        destruct rest as [| c' rest']; [apply Htail; simpl; unfold str, char in *; lia |].
        destruct (N.eqb c 13 && N.eqb c' 10).
        -- destruct (IH rest' [] ltac:(simpl in Hn; lia)) as [H1 H2].
           apply Htail; simpl in *; unfold str, char in *; lia.
        -- destruct (IH (c' :: rest') [] ltac:(simpl in *; lia)) as [H1 H2].
           apply Htail; simpl in *; unfold str, char in *; lia.
      * destruct (IH rest (c :: cur) ltac:(lia)) as [H1 H2].
        simpl in *; unfold str, char in *; lia.
Qed.

Lemma cut_loop_total
  (width : str -> Z) (iterate : str -> list (str * str))
  (max_width : Z) (hyphenation : bool) :
  (hyphenation = true -> cuts_of_word iterate) ->
  forall (lines res : list str),
    exists r,
      cut_loop width iterate max_width hyphenation lines res = Some r /\
      forall out, r = Ok out ->
        (List.length out <= List.length res + List.length (List.concat lines))%nat.
Proof.
  intros Hcuts; induction lines as [| line lines IH]; intros res.
  - exists (Ok res); split; [reflexivity |].
    intros out [= <-]; simpl; lia.
  - cbn [cut_loop].
    destruct (split_line_total width iterate max_width hyphenation Hcuts
                (List.length line) line (le_n _)) as (r & Hr & Hcount).
    rewrite Hr; destruct r as [splitted | e].
    + destruct (IH (res ++ splitted)) as (r' & Hr' & Hcount').
      exists r'; split; [exact Hr' |].
      intros out Hout; specialize (Hcount' out Hout).
      specialize (Hcount splitted eq_refl).
      rewrite length_app in Hcount'; simpl; rewrite length_app; lia.
    + exists (Raise e); split; [reflexivity |].
      intros out H; discriminate.
Qed.

(** X8.  With candidates that cut their word, constructing a layout always
    ends, in a layout or in an exception, and a layout has no more lines
    than its text has code points, with or without a width budget. *)
Theorem Text_init_answers
  (Color : Type) (truetype : string -> Z -> result (str -> Z))
  (iterate : str -> list (str * str))
  (render_text : str -> string -> Z -> option Color -> result RenderImage)
  (text : str) (name : string) (sz : Z) (max_width : option Z)
  (al : Alignment) (col : option Color) (sp : Z) (hy : bool) :
  (hy = true -> cuts_of_word iterate) ->
  exists r,
    Text_init Color truetype iterate render_text text name sz max_width al col sp hy
      = Some r /\
    forall self, r = Ok self ->
      (List.length (pre_rendered self) <= List.length text)%nat.
Proof.
  intros Hcuts.
  destruct (splitlines_from_bounds (List.length text) text [] (le_n _)) as [Hsum Hcount].
  fold (splitlines text) in Hsum, Hcount; simpl in Hsum, Hcount.
  assert (Hcut : exists c,
             cut truetype iterate name sz hy text max_width = Some c /\
             forall lines, c = Ok lines ->
                           (List.length lines <= List.length text)%nat).
  { unfold cut; destruct max_width as [w |].
    - destruct (truetype name sz) as [measure | e].
      + destruct (cut_loop_total measure iterate w hy Hcuts (splitlines text) [])
          as (r & Hr & Hlen).
        exists r; split; [exact Hr |].
        intros lines Hl; specialize (Hlen lines Hl); simpl in Hlen; lia.
      + exists (Raise e); split; [reflexivity | intros lines H; discriminate].
    - exists (Ok (splitlines text)); split; [reflexivity |].
      intros lines [= <-]; lia. }
  destruct Hcut as (c & Hc & Hlen).
  unfold Text_init; rewrite Hc.
  destruct c as [lines | e].
  - destruct (render_lines Color render_text lines name sz col) as [ims | e] eqn:E.
    + eexists; split; [reflexivity |].
      intros self [= <-]; simpl.
      pose proof (Forall2_length (render_lines_each _ _ _ _ _ _ _ E)) as Hl.
      specialize (Hlen lines eq_refl); lia.
    + exists (Raise e); split; [reflexivity | intros self H; discriminate].
  - exists (Raise e); split; [reflexivity | intros self H; discriminate].
Qed.

Lemma Text_init_answers_witness :
  cuts_of_word sample_cuts /\
  exists r,
    Text_init unit strict_truetype sample_cuts sample_render
      (lit "a beautiful") "sans" 12 (Some 80) START None 2 true = Some r.
Proof.
  split; [exact sample_cuts_of_word |].
  destruct (Text_init_answers unit strict_truetype sample_cuts sample_render
              (lit "a beautiful") "sans"%string 12 (Some 80) START None 2 true
              (fun _ => sample_cuts_of_word)) as (r & Hr & _).
  exists r; exact Hr.
Defined.

Lemma sum_heights_bounds (ims : list RenderImage) :
  Forall (fun im => 0 <= im_height im) ims ->
  0 <= fold_right Z.add 0 (map im_height ims) /\
  Forall (fun im => im_height im <= fold_right Z.add 0 (map im_height ims)) ims.
Proof.
  induction 1 as [| im ims Him _ [IH0 IH]]; simpl; [split; [lia | constructor] |].
  split; [lia |].
  constructor; [lia |].
  eapply Forall_impl; [| exact IH]; simpl; intros; lia.
Qed.

(** X9.  The height of the block: with no line it is 0, where the width
    raises; with lines it is their heights and one spacing between each two;
    and with heights and a spacing that are not negative it is at least the
    height of every line. *)
Theorem content_height_of_lines (Color : Type) (self : Text Color) :
  0 <= spacing Color self ->
  Forall (fun im => 0 <= im_height im) (pre_rendered self) ->
  (pre_rendered self = [] -> content_height Color self = 0) /\
  (pre_rendered self <> [] ->
   content_height Color self =
     fold_right Z.add 0 (map im_height (pre_rendered self))
     + (len (pre_rendered self) - 1) * spacing Color self) /\
  Forall (fun im => im_height im <= content_height Color self) (pre_rendered self).
Proof.
  intros Hsp Hh; unfold content_height.
  destruct (sum_heights_bounds _ Hh) as [H0 Hall].
  split; [intros ->; reflexivity |].
  split.
  - intros Hne.
    assert (0 < len (pre_rendered self)).
    { destruct (pre_rendered self); [contradiction |].
      unfold len; simpl List.length; lia. }
    rewrite Z.max_r by lia; reflexivity.
  - eapply Forall_impl; [| exact Hall]; simpl.
    intros im Him.
    pose proof (Z.le_max_l 0 (len (pre_rendered self) - 1)).
    nia.
Qed.

Lemma content_height_of_lines_witness :
  content_height unit
    {| font := "sans"; size := 12; alignment := START; color := None;
       spacing := 2; hyphenation := true;
       pre_rendered := [{| im_width := 70; im_height := 12 |};
                        {| im_width := 50; im_height := 12 |}] |} = 24 + (2 - 1) * 2.
Proof.
  apply (proj1 (proj2 (content_height_of_lines unit
           {| font := "sans"; size := 12; alignment := START; color := None;
              spacing := 2; hyphenation := true;
              pre_rendered := [{| im_width := 70; im_height := 12 |};
                               {| im_width := 50; im_height := 12 |}] |}
           ltac:(simpl; lia)
           ltac:(repeat constructor; simpl; lia)))).
  discriminate.
Defined.

(** ** Crop masks *)

(** X10.  The plain rectangle mask: with a border radius of 0 the mask is
    one rectangle whose corners are the width and the height asked for
    apart.  OpenCV fills both corners, so the block is one pixel wider and
    higher than asked; it is centred in the image to the pixel: the columns
    left of it are as many as those right of it or one more, and so for
    the rows above and below it.  With no size given the block covers every
    pixel of the image. *)
Theorem RectCrop_plain_mask (self : RectCrop) (obj : RenderImage) :
  border_radius self = 0 ->
  exists x1 y1 x2 y2,
    shapes (RectCrop_get_mask self obj) = [Rectangle x1 y1 x2 y2] /\
    x2 - x1 = match rect_width self with Some w => w | None => im_width obj end /\
    y2 - y1 = match rect_height self with Some h => h | None => im_height obj end /\
    0 <= x1 - (im_width obj - 1 - x2) <= 1 /\
    0 <= y1 - (im_height obj - 1 - y2) <= 1 /\
    (rect_width self = None ->
     forall x, 0 <= x < im_width obj -> x1 <= x <= x2) /\
    (rect_height self = None ->
     forall y, 0 <= y < im_height obj -> y1 <= y <= y2).
Proof.
  intros Hr; unfold RectCrop_get_mask; rewrite Hr; simpl.
  set (w := match rect_width self with Some w => w | None => im_width obj end).
  set (h := match rect_height self with Some h => h | None => im_height obj end).
  exists ((im_width obj - w) / 2), ((im_height obj - h) / 2),
         ((im_width obj - w) / 2 + w), ((im_height obj - h) / 2 + h).
  pose proof (Z.div_mod (im_width obj - w) 2 ltac:(lia)) as Hx.
  pose proof (Z.mod_pos_bound (im_width obj - w) 2 ltac:(lia)) as Hxm.
  pose proof (Z.div_mod (im_height obj - h) 2 ltac:(lia)) as Hy.
  pose proof (Z.mod_pos_bound (im_height obj - h) 2 ltac:(lia)) as Hym.
  split; [reflexivity |].
  split; [lia |]. split; [lia |]. split; [lia |]. split; [lia |].
  split.
  - intros Hnone x Hrange; unfold w in *; rewrite Hnone in *.
    replace (im_width obj - im_width obj) with 0 in * by lia.
    change (0 / 2) with 0; lia.
  - intros Hnone y Hrange; unfold h in *; rewrite Hnone in *.
    replace (im_height obj - im_height obj) with 0 in * by lia.
    change (0 / 2) with 0; lia.
Qed.

Lemma RectCrop_plain_mask_witness :
  exists x1 y1 x2 y2,
    shapes (RectCrop_get_mask (RectCrop_of_square (Some 40) 0)
              {| im_width := 101; im_height := 60 |})
      = [Rectangle x1 y1 x2 y2] /\
    x2 - x1 = 40 /\ y2 - y1 = 40 /\
    0 <= x1 - (101 - 1 - x2) <= 1 /\ 0 <= y1 - (60 - 1 - y2) <= 1.
Proof.
  destruct (RectCrop_plain_mask (RectCrop_of_square (Some 40) 0)
              {| im_width := 101; im_height := 60 |} eq_refl)
    as (x1 & y1 & x2 & y2 & E & Hw & Hh & Hx & Hy & _).
  exists x1, y1, x2, y2; repeat split; assumption || apply Hx || apply Hy.
Defined.

(** X11.  The rounded mask stays within the plain one: with a positive
    border radius and a size that is not negative, the radius drawn is the
    one asked for, cut down to half the shorter side, and the four corner
    circles and the two rectangles all lie within the rectangle of the
    plain mask. *)
Theorem RectCrop_rounded_mask (self : RectCrop) (obj : RenderImage) :
  let width := match rect_width self with Some w => w | None => im_width obj end in
  let height := match rect_height self with Some h => h | None => im_height obj end in
  let start_x := (im_width obj - width) / 2 in
  let start_y := (im_height obj - height) / 2 in
  let radius := Z.min (border_radius self) (Z.min width height / 2) in
  0 < border_radius self -> 0 <= width -> 0 <= height ->
  shapes (RectCrop_get_mask self obj) =
    [Circle (start_x + radius) (start_y + radius) radius;
     Circle (start_x + radius) (start_y + height - radius) radius;
     Circle (start_x + width - radius) (start_y + radius) radius;
     Circle (start_x + width - radius) (start_y + height - radius) radius;
     Rectangle start_x (start_y + radius) (start_x + width) (start_y + height - radius);
     Rectangle (start_x + radius) start_y (start_x + width - radius) (start_y + height)] /\
  Forall (within start_x start_y (start_x + width) (start_y + height))
         (shapes (RectCrop_get_mask self obj)).
Proof.
  intros width height start_x start_y radius Hr Hw Hh.
  assert (Hhalf : 0 <= Z.min width height / 2 /\ 2 * (Z.min width height / 2) <= Z.min width height).
  { pose proof (Z.div_mod (Z.min width height) 2 ltac:(lia)).
    pose proof (Z.mod_pos_bound (Z.min width height) 2 ltac:(lia)).
    lia. }
  assert (E : shapes (RectCrop_get_mask self obj) =
    [Circle (start_x + radius) (start_y + radius) radius;
     Circle (start_x + radius) (start_y + height - radius) radius;
     Circle (start_x + width - radius) (start_y + radius) radius;
     Circle (start_x + width - radius) (start_y + height - radius) radius;
     Rectangle start_x (start_y + radius) (start_x + width) (start_y + height - radius);
     Rectangle (start_x + radius) start_y (start_x + width - radius) (start_y + height)]).
  { unfold RectCrop_get_mask.
    fold width; fold height; fold start_x; fold start_y.
    destruct (Z.eqb_spec (border_radius self) 0); [lia |].
    assert (Hrad : (if border_radius self >? Z.min width height / 2
                    then Z.min width height / 2 else border_radius self) = radius).
    { unfold radius.
      destruct (Z.gtb_spec (border_radius self) (Z.min width height / 2)); lia. }
    cbv zeta; rewrite Hrad; reflexivity. }
  split; [exact E |].
  rewrite E.
  assert (Hrange : 0 <= radius /\ 2 * radius <= width /\ 2 * radius <= height)
    by (unfold radius; lia).
  repeat constructor; simpl; lia.
Qed.

Lemma RectCrop_rounded_mask_witness :
  Forall (within 30 10 70 50)
         (shapes (RectCrop_get_mask (RectCrop_of_square (Some 40) 100)
                    {| im_width := 100; im_height := 60 |})).
Proof.
  apply (proj2 (RectCrop_rounded_mask (RectCrop_of_square (Some 40) 100)
                  {| im_width := 100; im_height := 60 |}
                  ltac:(simpl; lia) ltac:(simpl; lia) ltac:(simpl; lia))).
Defined.

(** X12.  The default circle mask: its radius is half the shorter side and
    its centre, read by OpenCV as (x, y), is (height // 2, width // 2).
    The circle reaches from the centre less the radius to the centre plus
    the radius; it stays within the pixels of the image, columns 0 to
    width - 1 and rows 0 to height - 1, exactly when the image is square
    with an odd side. *)
Theorem CircleCrop_default_mask (obj : RenderImage) :
  0 <= im_width obj -> 0 <= im_height obj ->
  shapes (CircleCrop_get_mask None obj) =
    [Circle (im_height obj / 2) (im_width obj / 2)
            (Z.min (im_height obj) (im_width obj) / 2)] /\
  (Forall (within 0 0 (im_width obj - 1) (im_height obj - 1))
          (shapes (CircleCrop_get_mask None obj)) <->
   im_height obj = im_width obj /\ im_height obj mod 2 = 1).
Proof.
  intros Hw Hh.
  pose proof (Z.div_mod (im_width obj) 2 ltac:(lia)) as Hwd.
  pose proof (Z.mod_pos_bound (im_width obj) 2 ltac:(lia)) as Hwm.
  pose proof (Z.div_mod (im_height obj) 2 ltac:(lia)) as Hhd.
  pose proof (Z.mod_pos_bound (im_height obj) 2 ltac:(lia)) as Hhm.
  split; [reflexivity |].
  unfold CircleCrop_get_mask; simpl shapes.
  split.
  - intros Hall.
    inversion Hall as [| s l Hin _]; subst.
    simpl in Hin.
    destruct (Z.le_ge_cases (im_height obj) (im_width obj)) as [Hle | Hge].
    + rewrite Z.min_l in Hin by lia; lia.
    + rewrite Z.min_r in Hin by lia; lia.
  - intros [E Hodd]; rewrite <- E, Z.min_id in *.
    repeat constructor; simpl; lia.
Qed.

Lemma CircleCrop_default_mask_witness :
  Forall (within 0 0 (101 - 1) (101 - 1))
         (shapes (CircleCrop_get_mask None {| im_width := 101; im_height := 101 |})).
Proof.
  apply (proj2 (proj2 (CircleCrop_default_mask {| im_width := 101; im_height := 101 |}
                         ltac:(simpl; lia) ltac:(simpl; lia)))).
  split; reflexivity.
Defined.

(** ** What a line is made of *)

Lemma split_line_made_of
  (width : str -> Z) (iterate : str -> list (str * str))
  (max_width : Z) (hyphenation : bool) :
  (hyphenation = true ->
   forall w p s, In (p, s) (iterate w) -> p ++ s = w) ->
  forall (f : nat) (text : str) (lines : list str),
    _split_line width iterate max_width hyphenation f text = Some (Ok lines) ->
    forall line, In line lines ->
      (exists a b, text = a ++ line ++ b) \/
      (exists pre a b, line = pre ++ [hyphen] /\ text = a ++ pre ++ b).
Proof.
  intros Hcuts; induction f as [| f IH]; intros text lines H line Hin; [discriminate |].
  change (_split_line width iterate max_width hyphenation (S f) text)
    with (split_line_body width iterate max_width hyphenation
            (_split_line width iterate max_width hyphenation f) text) in H.
  destruct (body_step width iterate max_width hyphenation text) as (d & Hd & E).
  rewrite E in H; clear E.
  destruct d as [r | l rem]; unfold run in H.
  - remember (Stop r) as d eqn:Ed.
    destruct Hd as [-> | | Hne Hall | |]; try discriminate;
      injection Ed as <-; try discriminate; injection H as <-.
    + destruct Hin.
    + destruct Hin as [<- | []].
      left; exists [], []; rewrite app_nil_r; reflexivity.
  - destruct (_split_line width iterate max_width hyphenation f rem)
      as [[ls | e] |] eqn:Er; try discriminate.
    injection H as <-.
    assert (Hrest : forall head, text = head ++ rem ->
              In line ls ->
              (exists a b, text = a ++ line ++ b) \/
              (exists pre a b, line = pre ++ [hyphen] /\ text = a ++ pre ++ b)).
    { intros head Ehead Hl.
      destruct (IH _ _ Er line Hl) as [(a & b & Ea) | (pre & a & b & Ep & Ea)].
      - left; exists (head ++ a), b.
        rewrite Ehead, Ea, <- app_assoc; reflexivity.
      - right; exists pre, (head ++ a), b; split; [exact Ep |].
        rewrite Ehead, Ea, <- app_assoc; reflexivity. }
    destruct (step_emit_shape width iterate max_width hyphenation text l rem Hcuts Hd)
      as [(k & Ek) | (_ & pre & Ep & Epre)].
    + destruct Hin as [<- | Hin].
      * left; exists [], (repeat space k ++ rem); exact Ek.
      * apply (Hrest (l ++ repeat space k)); [| exact Hin].
        rewrite <- app_assoc; exact Ek.
    + destruct Hin as [<- | Hin].
      * right; exists pre, [], rem; split; [exact Ep | exact Epre].
      * apply (Hrest pre Epre Hin).
Qed.

(** X13.  With candidates that cut their word, a line of an answer is a
    piece of the text, or a piece of the text with one hyphen after it: the
    hyphen of a cut is the only code point the splitter adds. *)
Theorem split_line_adds_hyphens_only
  (width : str -> Z) (iterate : str -> list (str * str))
  (max_width : Z) (hyphenation : bool)
  (fuel : nat) (text : str) (lines : list str) (line : str) :
  (hyphenation = true ->
   forall w p s, In (p, s) (iterate w) -> p ++ s = w) ->
  _split_line width iterate max_width hyphenation fuel text = Some (Ok lines) ->
  In line lines ->
  (exists a b, text = a ++ line ++ b) \/
  (exists pre a b, line = pre ++ [hyphen] /\ text = a ++ pre ++ b).
Proof.
  intros Hcuts H Hin.
  exact (split_line_made_of width iterate max_width hyphenation Hcuts
           fuel text lines H line Hin).
Qed.

Lemma split_line_adds_hyphens_only_witness :
  (exists a b, lit "a beautiful" = a ++ lit "a beau-" ++ b) \/
  (exists pre a b, lit "a beau-" = pre ++ [hyphen] /\
                   lit "a beautiful" = a ++ pre ++ b).
Proof.
  apply (split_line_adds_hyphens_only fixed10 sample_cuts 80 true 3
           (lit "a beautiful") [lit "a beau-"; lit "tiful"] (lit "a beau-")).
  - intros _ w p s Hin; apply (sample_cuts_of_word w p s Hin).
  - reflexivity.
  - left; reflexivity.
Defined.
